(** * Pokemon memory game: the data pipeline and the matching engine

    A shallow embedding of [src/js/pokemon.js] (remote data client, batch
    fetcher, name normalisation) and of [src/js/app.js] (pair builder,
    Fisher-Yates shuffle, board/session state machine), followed by the
    properties the specification states about them.

    Conventions.
    - A JavaScript string is its sequence of UTF-16 code units, [list N].
    - [null] and [undefined] are [None].
    - A [try { ... } catch] block is a computation in the [Exc] monad
      whose [Throw] case is handled where the source has its [catch].
    - [Math.random] is an entropy source [nat -> nat], the k-th call
      reading position k.  The floating-point expression
      [Math.floor(Math.random() * n)] is not evaluated in floating point:
      it is the draw reduced into [0, n), so that every index below [n]
      can come out and no other.
    - Module-level variables, the CSS classes of the cards, the pending
      timers and the suspended [async] calls form one record, [World];
      every handler is a function on it. *)

From Stdlib Require Import String Ascii QArith.
From stdpp Require Import base option list numbers.

Local Open Scope nat_scope.

(** ** JavaScript strings *)

Abbreviation JSString := (list N).

(** An ASCII literal as a JavaScript string. *)
Definition js (s : string) : JSString := N_of_ascii <$> list_ascii_of_string s.

(** ** Exceptions *)

Inductive Error : Type :=
  | NetworkFailure            (* fetch() rejected *)
  | HttpFailure (status : nat) (* new Error(`Failed to fetch Pokemon: ...`) *)
  | SyntaxError               (* JSON does not parse *)
  | TypeError.                (* property access on undefined or null *)

Inductive Exc (A : Type) : Type :=
  | Ok (a : A)
  | Throw (e : Error).
Arguments Ok {A} a.
Arguments Throw {A} e.

#[global] Instance Exc_ret : MRet Exc := fun _ a => Ok a.
#[global] Instance Exc_bind : MBind Exc := fun _ _ f m =>
  match m with
  | Ok a => f a
  | Throw e => Throw e
  end.
#[global] Instance Exc_fmap : FMap Exc := fun _ _ f m =>
  match m with
  | Ok a => Ok (f a)
  | Throw e => Throw e
  end.

(** [try { body } catch (error) { handler }] *)
Definition try_catch {A} (body : Exc A) (handler : Error -> A) : A :=
  match body with
  | Ok a => a
  | Throw e => handler e
  end.

(** ** pokemon.js *)

Definition TOTAL_POKEMON : nat := 1008.

(** [Math.floor(Math.random() * n)] for the draw [r]. *)
Definition random_below (r n : nat) : nat := r mod n.

(** One entry [s] of the [stats] array.  The callback of [findStat]
    dereferences [s.stat] and compares [s.stat.name]; [s.base_stat] is
    only copied. *)
Record RawStat : Type := {
  stat : option (option JSString); (* s.stat.name; [None]: [s] has no [stat],
                                      [Some None]: [s.stat] has no [name] *)
  base_stat : option nat           (* s.base_stat; [None]: [s] has none *)
}.

(** The record the catalog answers with.  What [processPokemonData]
    dereferences, or calls a method of, on every record is there: [name],
    a string, [sprites.other['official-artwork']], the arrays [types],
    [abilities] and [stats], the [type] of each entry of [types], the
    [ability.name] of each entry of [abilities], and [species].  What it
    only copies, divides or compares may be absent, [None]: [id],
    [height], [weight], both sprites (absent or [null]), the [name] of a
    type, [species.url], and the [name] and the [base_stat] of an entry
    of [stats].  An entry of [stats] may also lack its [stat], which is
    dereferenced only if [findStat] visits the entry.  A field that is
    present has the kind the catalog gives it: a number for [id],
    [height], [weight] and [base_stat], a string for the others. *)
Record RawPokemon : Type := {
  raw_id : option nat;
  raw_name : JSString;
  raw_artwork : option JSString;       (* sprites.other['official-artwork'].front_default *)
  raw_front_default : option JSString; (* sprites.front_default *)
  raw_types : list (option JSString);  (* types[k].type.name *)
  raw_height : option Z;
  raw_weight : option Z;
  raw_abilities : list JSString;       (* abilities[k].ability.name *)
  raw_stats : list RawStat;
  raw_species_url : option JSString    (* species.url *)
}.

(** The [stats] of an entity; a value is [undefined], [None], when the
    entry found has no [base_stat]. *)
Record Stats : Type := {
  hp : option nat;
  attack : option nat;
  defense : option nat;
  speed : option nat
}.

(** The entity [processPokemonData] builds.  [id] is [undefined], [None],
    when the record has none; [height] and [weight] are [NaN], [None],
    when the record has none ([undefined / 10]). *)
Record Pokemon : Type := {
  id : option nat;
  name : JSString;
  sprite : option JSString;
  types : list (option JSString);
  height : option Q;
  weight : option Q;
  abilities : list JSString;
  stats : Stats;
  speciesUrl : option JSString
}.

(** [===] on two identifiers, each a number or [undefined]. *)
Definition id_eq_dec (x y : option nat) : {x = y} + {x ≠ y} := decide (x = y).

(** What [response.json()] resolves to: a record of the catalog, or a
    value that lacks one of the parts listed at [RawPokemon] as
    dereferenced, on which [processPokemonData] throws a [TypeError]
    whatever else it holds ([undefined.charAt], [undefined.other],
    [undefined.map], [undefined.name], [undefined.find],
    [undefined.url]).  A value with a field of another kind than the
    catalog's, a string for [id] say, is not represented. *)
Inductive Payload : Type :=
  | Incomplete
  | Complete (data : RawPokemon).

Inductive Body : Type :=
  | NotJson
  | Json (p : Payload).

Record Response : Type := {
  ok : bool;
  status : nat;
  body : Body
}.

Inductive FetchOutcome : Type :=
  | Rejected
  | Responded (r : Response).

(** The environment of one deal: the entropy source and, for the k-th
    request and the identifier it asks for, what the network does. *)
Record Env : Type := {
  random : nat -> nat;
  network : nat -> nat -> FetchOutcome
}.

Definition hyphen : N := 45%N.
Definition space : N := 32%N.

(** [s.charAt(i)] *)
Definition charAt (s : JSString) (i : nat) : JSString :=
  match s !! i with
  | Some c => [c]
  | None => []
  end.

(** [s.replace(pat, rep)] for a one-unit string pattern: only the first
    occurrence is replaced. *)
Fixpoint replace (pat rep : N) (s : JSString) : JSString :=
  match s with
  | [] => []
  | c :: r => if decide (c = pat) then rep :: r else c :: replace pat rep r
  end.

(** [s.slice(n)] for [n >= 0] *)
Definition slice (n : nat) (s : JSString) : JSString := drop n s.

(** [a || b] on values that are a string or null: the empty string is falsy. *)
Definition or_else (a b : option JSString) : option JSString :=
  match a with
  | Some (_ :: _) => a
  | _ => b
  end.

(** [stats.find(s => s.stat.name === statName)]: the entries are visited
    in order up to the first that satisfies the callback, and the callback
    throws on an entry without [stat]. *)
Fixpoint find (stats : list RawStat) (statName : JSString) : Exc (option RawStat) :=
  match stats with
  | [] => Ok None
  | s :: rest =>
      match stat s with
      | None => Throw TypeError
      | Some name =>
          if decide (name = Some statName) then Ok (Some s) else find rest statName
      end
  end.

(** [findStat] *)
Definition findStat (stats : list RawStat) (statName : JSString) : Exc (option nat) :=
  found ← find stats statName;
  Ok (match found with
      | Some s => base_stat s
      | None => Some 0
      end).

(** A table for the upper-case mapping above U+00FF that changes nothing,
    for examples that upper-case no such code unit. *)
Definition upper_unchanged : N -> JSString := fun c => [c].

Section Program.

(** The upper-case mapping of the Unicode character database for the
    code units above U+00FF, which this development does not tabulate. *)
Variable upperAbove : N -> JSString.

(** [toUpperCase] of a one-unit string: Basic Latin and Latin-1 as the
    character database has them (sharp s expands to two letters, the
    micro sign and y-diaeresis leave Latin-1). *)
Definition upperUnit (c : N) : JSString :=
  if decide (97 ≤ c ≤ 122)%N then [(c - 32)%N]
  else if decide (c = 181)%N then [924%N]
  else if decide (c = 223)%N then [83%N; 83%N]
  else if decide (c = 247)%N then [c]
  else if decide (224 ≤ c ≤ 254)%N then [(c - 32)%N]
  else if decide (c = 255)%N then [376%N]
  else if decide (c < 256)%N then [c]
  else upperAbove c.

(** [s.toUpperCase()], used on the result of [charAt] only. *)
Definition toUpperCase (s : JSString) : JSString := s ≫= upperUnit.

(** [capitalizeFirstLetter] *)
Definition capitalizeFirstLetter (s : JSString) : JSString :=
  toUpperCase (charAt s 0) ++ slice 1 (replace hyphen space s).

(** [processPokemonData] on a record of the catalog: of the expressions
    of its object literal, the four calls of [findStat] alone can throw
    on such a record. *)
Definition processPokemonData (data : RawPokemon) : Exc Pokemon :=
  hpStat ← findStat (raw_stats data) (js "hp");
  attackStat ← findStat (raw_stats data) (js "attack");
  defenseStat ← findStat (raw_stats data) (js "defense");
  speedStat ← findStat (raw_stats data) (js "speed");
  Ok {| id := raw_id data;
        name := capitalizeFirstLetter (raw_name data);
        sprite := or_else (raw_artwork data) (raw_front_default data);
        types := raw_types data;
        height := (fun h => inject_Z h / 10)%Q <$> raw_height data;
        weight := (fun w => inject_Z w / 10)%Q <$> raw_weight data;
        abilities := capitalizeFirstLetter <$> raw_abilities data;
        stats := {| hp := hpStat;
                    attack := attackStat;
                    defense := defenseStat;
                    speed := speedStat |};
        speciesUrl := raw_species_url data |}.

(** The body of the [try] block of [fetchRandomPokemon], for the k-th call. *)
Definition fetchRandomPokemon_try (env : Env) (k : nat) : Exc Pokemon :=
  let randomId := random_below (random env k) TOTAL_POKEMON + 1 in
  response ← match network env k randomId with
             | Rejected => Throw NetworkFailure
             | Responded r => Ok r
             end;
  _ ← (if ok response then Ok tt else Throw (HttpFailure (status response)));
  data ← match body response with
         | NotJson => Throw SyntaxError
         | Json p => Ok p
         end;
  match data with
  | Incomplete => Throw TypeError
  | Complete d => processPokemonData d
  end.

(** [fetchRandomPokemon]: every failure is logged and becomes [null]. *)
Definition fetchRandomPokemon (env : Env) (k : nat) : option Pokemon :=
  try_catch (Some <$> fetchRandomPokemon_try env k) (fun _ => None).

(** [Promise.all]: fulfils with every value when every promise fulfils,
    rejects with the first rejection otherwise. *)
Fixpoint Promise_all {A} (promises : list (Exc A)) : Exc (list A) :=
  match promises with
  | [] => Ok []
  | promise :: rest =>
      value ← promise; values ← Promise_all rest; Ok (value :: values)
  end.

(** [fetchMultipleRandomPokemon]: the promise of an [async] function whose
    whole body is guarded always fulfils, here with [fetchRandomPokemon]. *)
Definition fetchMultipleRandomPokemon (env : Env) (count : nat) : list Pokemon :=
  try_catch
    (let promises : list (Exc (option Pokemon)) :=
       fmap (M := list) (fun k => Ok (fetchRandomPokemon env k)) (seq 0 count) in
     Promise_all promises ≫= fun pokemonList : list (option Pokemon) =>
     Ok (omap (M := list) (fun pokemon : option Pokemon => pokemon) pokemonList))
    (fun _ => []).

(** ** app.js *)

Definition CARD_COUNT : nat := 12.
Definition TOTAL_PAIRS : nat := 6.

(** A card element: its [dataset.index], whether its class list holds
    [flipped] and [matched], and [dataset.pokemon], the entity as JSON.
    The session reads the [id] of the parsed entity and nothing else of
    it, and [JSON.parse] after [JSON.stringify] gives a numeric [id] back
    and leaves an absent one absent. *)
Record Card : Type := {
  dataset_index : nat;
  class_flipped : bool;
  class_matched : bool;
  dataset_pokemon : option Pokemon
}.

Inductive Visibility : Type := hidden | revealed | matched.

#[global] Instance Visibility_eq_dec : EqDecision Visibility.
Proof. solve_decision. Defined.

Definition visibility (c : Card) : Visibility :=
  if class_matched c then matched
  else if class_flipped c then revealed
  else hidden.

(** Callbacks handed to [setTimeout]. *)
Inductive Timer : Type :=
  | FlipBack          (* the arrow function of handleNonMatch, 1000 ms *)
  | ShowGameComplete. (* showGameComplete, 500 ms *)

#[global] Instance Timer_eq_dec : EqDecision Timer.
Proof. solve_decision. Defined.

(** What a suspended [fetchAndAssignPokemon] returns to. *)
Inductive Caller : Type :=
  | FromInitApp    (* awaited: initApp goes on after it *)
  | FromResetGame. (* not awaited *)

(** A card is referred to by its position in [cards], which is also the
    order of the elements in the grid. *)
Record World : Type := {
  cards : list Card;
  firstSelectedCard : option nat;
  secondSelectedCard : option nat;
  isProcessingPair : bool;
  matchedPairs : nat;
  spinnerHidden : bool;       (* loadingSpinner has class hidden *)
  gridHidden : bool;          (* cardGrid has class hidden *)
  listening : bool;           (* handleCardClick is registered on cardGrid *)
  errorMessages : nat;        (* .error-message containers, each with Try Again *)
  completionMessages : nat;   (* .completion-message containers, each with Play Again *)
  timers : list Timer;
  suspended : list Caller
}.

Definition set_cards (v : list Card) (w : World) : World :=
  {| cards := v; firstSelectedCard := firstSelectedCard w;
     secondSelectedCard := secondSelectedCard w;
     isProcessingPair := isProcessingPair w; matchedPairs := matchedPairs w;
     spinnerHidden := spinnerHidden w; gridHidden := gridHidden w;
     listening := listening w; errorMessages := errorMessages w;
     completionMessages := completionMessages w; timers := timers w;
     suspended := suspended w |}.

Definition set_firstSelectedCard (v : option nat) (w : World) : World :=
  {| cards := cards w; firstSelectedCard := v;
     secondSelectedCard := secondSelectedCard w;
     isProcessingPair := isProcessingPair w; matchedPairs := matchedPairs w;
     spinnerHidden := spinnerHidden w; gridHidden := gridHidden w;
     listening := listening w; errorMessages := errorMessages w;
     completionMessages := completionMessages w; timers := timers w;
     suspended := suspended w |}.

Definition set_secondSelectedCard (v : option nat) (w : World) : World :=
  {| cards := cards w; firstSelectedCard := firstSelectedCard w;
     secondSelectedCard := v;
     isProcessingPair := isProcessingPair w; matchedPairs := matchedPairs w;
     spinnerHidden := spinnerHidden w; gridHidden := gridHidden w;
     listening := listening w; errorMessages := errorMessages w;
     completionMessages := completionMessages w; timers := timers w;
     suspended := suspended w |}.

Definition set_isProcessingPair (v : bool) (w : World) : World :=
  {| cards := cards w; firstSelectedCard := firstSelectedCard w;
     secondSelectedCard := secondSelectedCard w;
     isProcessingPair := v; matchedPairs := matchedPairs w;
     spinnerHidden := spinnerHidden w; gridHidden := gridHidden w;
     listening := listening w; errorMessages := errorMessages w;
     completionMessages := completionMessages w; timers := timers w;
     suspended := suspended w |}.

Definition set_matchedPairs (v : nat) (w : World) : World :=
  {| cards := cards w; firstSelectedCard := firstSelectedCard w;
     secondSelectedCard := secondSelectedCard w;
     isProcessingPair := isProcessingPair w; matchedPairs := v;
     spinnerHidden := spinnerHidden w; gridHidden := gridHidden w;
     listening := listening w; errorMessages := errorMessages w;
     completionMessages := completionMessages w; timers := timers w;
     suspended := suspended w |}.

Definition set_page (spinner grid listen : bool) (w : World) : World :=
  {| cards := cards w; firstSelectedCard := firstSelectedCard w;
     secondSelectedCard := secondSelectedCard w;
     isProcessingPair := isProcessingPair w; matchedPairs := matchedPairs w;
     spinnerHidden := spinner; gridHidden := grid;
     listening := listen; errorMessages := errorMessages w;
     completionMessages := completionMessages w; timers := timers w;
     suspended := suspended w |}.

Definition set_errorMessages (v : nat) (w : World) : World :=
  {| cards := cards w; firstSelectedCard := firstSelectedCard w;
     secondSelectedCard := secondSelectedCard w;
     isProcessingPair := isProcessingPair w; matchedPairs := matchedPairs w;
     spinnerHidden := spinnerHidden w; gridHidden := gridHidden w;
     listening := listening w; errorMessages := v;
     completionMessages := completionMessages w; timers := timers w;
     suspended := suspended w |}.

Definition set_completionMessages (v : nat) (w : World) : World :=
  {| cards := cards w; firstSelectedCard := firstSelectedCard w;
     secondSelectedCard := secondSelectedCard w;
     isProcessingPair := isProcessingPair w; matchedPairs := matchedPairs w;
     spinnerHidden := spinnerHidden w; gridHidden := gridHidden w;
     listening := listening w; errorMessages := errorMessages w;
     completionMessages := v; timers := timers w;
     suspended := suspended w |}.

Definition set_timers (v : list Timer) (w : World) : World :=
  {| cards := cards w; firstSelectedCard := firstSelectedCard w;
     secondSelectedCard := secondSelectedCard w;
     isProcessingPair := isProcessingPair w; matchedPairs := matchedPairs w;
     spinnerHidden := spinnerHidden w; gridHidden := gridHidden w;
     listening := listening w; errorMessages := errorMessages w;
     completionMessages := completionMessages w; timers := v;
     suspended := suspended w |}.

Definition set_suspended (v : list Caller) (w : World) : World :=
  {| cards := cards w; firstSelectedCard := firstSelectedCard w;
     secondSelectedCard := secondSelectedCard w;
     isProcessingPair := isProcessingPair w; matchedPairs := matchedPairs w;
     spinnerHidden := spinnerHidden w; gridHidden := gridHidden w;
     listening := listening w; errorMessages := errorMessages w;
     completionMessages := completionMessages w; timers := timers w;
     suspended := v |}.

(** Class-list and dataset updates of one card element. *)
Definition set_flipped (b : bool) (c : Card) : Card :=
  {| dataset_index := dataset_index c; class_flipped := b;
     class_matched := class_matched c; dataset_pokemon := dataset_pokemon c |}.

Definition set_matched (b : bool) (c : Card) : Card :=
  {| dataset_index := dataset_index c; class_flipped := class_flipped c;
     class_matched := b; dataset_pokemon := dataset_pokemon c |}.

Definition set_pokemon (p : Pokemon) (c : Card) : Card :=
  {| dataset_index := dataset_index c; class_flipped := class_flipped c;
     class_matched := class_matched c; dataset_pokemon := Some p |}.

(** The element a reference points to is updated in place. *)
Definition update_card (f : Card -> Card) (card : nat) (w : World) : World :=
  set_cards (alter f card (cards w)) w.

Definition slot_visibility (w : World) (i : nat) : option Visibility :=
  visibility <$> cards w !! i.

Definition slot_pokemon (w : World) (i : nat) : option Pokemon :=
  cards w !! i ≫= dataset_pokemon.

(** The module-level variables when the script has been evaluated; whether
    the spinner and the grid start hidden is the page's business. *)
Definition page_loaded (spinner grid : bool) : World :=
  {| cards := []; firstSelectedCard := None; secondSelectedCard := None;
     isProcessingPair := false; matchedPairs := 0;
     spinnerHidden := spinner; gridHidden := grid; listening := false;
     errorMessages := 0; completionMessages := 0; timers := [];
     suspended := [] |}.

(** [createCardElement] *)
Definition createCardElement (index : nat) : Card :=
  {| dataset_index := index; class_flipped := false; class_matched := false;
     dataset_pokemon := None |}.

(** [createCardElements] *)
Definition createCardElements (w : World) : World :=
  set_cards (createCardElement <$> seq 0 CARD_COUNT) w.

(** [[a[i], a[j]] = [a[j], a[i]]]: both reads, then both writes.  The
    loop below keeps [j <= i < a.length], so no read is out of range. *)
Definition swap {A} (a : list A) (i j : nat) : list A :=
  match a !! j, a !! i with
  | Some aj, Some ai => <[j := ai]> (<[i := aj]> a)
  | _, _ => a
  end.

(** The loop of [shuffleArray], entered at index [i] with [k] draws made. *)
Fixpoint shuffle_loop {A} (rnd : nat -> nat) (k i : nat) (arrayCopy : list A)
    : list A :=
  match i with
  | 0 => arrayCopy
  | S i' =>
      let j := random_below (rnd k) (i + 1) in
      shuffle_loop rnd (S k) i' (swap arrayCopy i j)
  end.

(** [shuffleArray]: [structuredClone] yields an equal value. *)
Definition shuffleArray {A} (rnd : nat -> nat) (array : list A) : list A :=
  let arrayCopy := array in
  shuffle_loop rnd 0 (length arrayCopy - 1) arrayCopy.

(** [assignPokemonToCard], as far as the session reads it back: the
    entity is stored in the card's dataset.  Its guard against a missing
    card or entity is the one the caller has just evaluated. *)
Definition assignPokemonToCard (card : nat) (pokemon : Pokemon) (w : World)
    : World :=
  update_card (set_pokemon pokemon) card w.

(** [showErrorMessage] *)
Definition showErrorMessage (w : World) : World :=
  set_errorMessages (S (errorMessages w)) w.

(** The pairs built and shuffled by [fetchAndAssignPokemon]: each entity
    is pushed twice, as two copies with equal fields. *)
Definition shuffledPairs_of (pokemonList : list Pokemon) (rnd : nat -> nat)
    : list Pokemon :=
  let pokemonPairs := pokemonList ≫= fun pokemon => [pokemon; pokemon] in
  shuffleArray rnd pokemonPairs.

(** The assignment loop of [fetchAndAssignPokemon], run for [i < n]. *)
Definition assign_first (shuffledPairs : list Pokemon) (n : nat) (w : World)
    : World :=
  foldl (fun w i =>
           match cards w !! i, shuffledPairs !! i with
           | Some _, Some pokemon => assignPokemonToCard i pokemon w
           | _, _ => w
           end)
        w (seq 0 n).

Definition assign_all (shuffledPairs : list Pokemon) (w : World) : World :=
  assign_first shuffledPairs (min CARD_COUNT (length shuffledPairs)) w.

(** The [try] block of [fetchAndAssignPokemon], from the point where the
    batch and the loading delay have been awaited; nothing else is read or
    written between the two.  The six requests take the first six draws,
    the shuffle the following ones.  The batch fetcher catches its own
    exceptions, and on entities of the type [Pokemon] (a string for the
    name, strings or nothing for the types, a list for the abilities) no
    statement of the block or of [assignPokemonToCard] throws: the block
    is [Ok]. *)
Definition fetchAndAssignPokemon_try (env : Env) (w : World) : Exc World :=
  let pokemonList := fetchMultipleRandomPokemon env 6 in
  let shuffledPairs :=
    shuffledPairs_of pokemonList (fun k => random env (6 + k)) in
  Ok (assign_all shuffledPairs w).

(** [fetchAndAssignPokemon], when it resumes. *)
Definition fetchAndAssignPokemon (env : Env) (w : World) : World :=
  try_catch (fetchAndAssignPokemon_try env w) (fun _ => showErrorMessage w).

(** Calling [fetchAndAssignPokemon]: the requests leave and the call
    suspends. *)
Definition call_fetchAndAssignPokemon (caller : Caller) (w : World) : World :=
  set_suspended (suspended w ++ [caller]) w.

(** [initApp] up to its [await]. *)
Definition initApp (w : World) : World :=
  let w := set_page false (gridHidden w) (listening w) w in (* showLoading *)
  let w := set_page (spinnerHidden w) true (listening w) w in
  let w := createCardElements w in
  call_fetchAndAssignPokemon FromInitApp w.

(** [initApp] after its [await]: [setupEventListeners], [hideLoading],
    and the grid is shown. *)
Definition initApp_resumed (w : World) : World :=
  let w := set_page (spinnerHidden w) (gridHidden w) true w in
  let w := set_page true (gridHidden w) (listening w) w in
  set_page (spinnerHidden w) false (listening w) w.

(** [resetSelection] *)
Definition resetSelection (w : World) : World :=
  set_secondSelectedCard None (set_firstSelectedCard None w).

(** [JSON.parse(card.dataset.pokemon)] for a card reference: a null
    reference is a TypeError, a card without the attribute a SyntaxError. *)
Definition parse_pokemon (w : World) (card : option nat) : Exc Pokemon :=
  match card with
  | None => Throw TypeError
  | Some i =>
      match cards w !! i ≫= dataset_pokemon with
      | None => Throw SyntaxError
      | Some p => Ok p
      end
  end.

(** [handleMatch]; [checkForMatch] has read both references before. *)
Definition handleMatch (w : World) : World :=
  match firstSelectedCard w, secondSelectedCard w with
  | Some first, Some second =>
      let w := update_card (set_matched true) first w in
      let w := update_card (set_matched true) second w in
      let w := set_matchedPairs (matchedPairs w + 1) w in
      let w := if decide (matchedPairs w = TOTAL_PAIRS)
               then set_timers (timers w ++ [ShowGameComplete]) w
               else w in
      resetSelection w
  | _, _ => w
  end.

(** [handleNonMatch] *)
Definition handleNonMatch (w : World) : World :=
  let w := set_isProcessingPair true w in
  set_timers (timers w ++ [FlipBack]) w.

(** The callback [handleNonMatch] schedules.  It reads the two variables
    when it runs; a null one stops it with a TypeError where it is read. *)
Definition flipBack (w : World) : World :=
  match firstSelectedCard w with
  | None => w
  | Some first =>
      let w := update_card (set_flipped false) first w in
      match secondSelectedCard w with
      | None => w
      | Some second =>
          let w := update_card (set_flipped false) second w in
          let w := resetSelection w in
          set_isProcessingPair false w
      end
  end.

(** [checkForMatch]: the parsed values are objects, so the guard on
    missing data after the [try] never fires. *)
Definition checkForMatch (w : World) : World :=
  let parsed :=
    firstPokemonData ← parse_pokemon w (firstSelectedCard w);
    secondPokemonData ← parse_pokemon w (secondSelectedCard w);
    Ok (firstPokemonData, secondPokemonData) in
  match parsed with
  | Throw _ => resetSelection w
  | Ok (firstPokemonData, secondPokemonData) =>
      if decide (id firstPokemonData = id secondPokemonData)
      then handleMatch w
      else handleNonMatch w
  end.

(** [handleCardClick]; [target] is the card [event.target.closest('.card')]
    finds, if any. *)
Definition handleCardClick (target : option nat) (w : World) : World :=
  match target with
  | None => w
  | Some card =>
      match cards w !! card with
      | None => w
      | Some c =>
          if class_flipped c || class_matched c then w
          else if isProcessingPair w then w
          else
            let w := update_card (set_flipped true) card w in
            match firstSelectedCard w with
            | None => set_firstSelectedCard (Some card) w
            | Some first =>
                if decide (first ≠ card)
                then checkForMatch (set_secondSelectedCard (Some card) w)
                else w
            end
      end
  end.

(** [showGameComplete] *)
Definition showGameComplete (w : World) : World :=
  set_completionMessages (S (completionMessages w)) w.

(** [resetGame] *)
Definition resetGame (w : World) : World :=
  let w := set_firstSelectedCard None w in
  let w := set_secondSelectedCard None w in
  let w := set_isProcessingPair false w in
  let w := set_matchedPairs 0 w in
  let w := set_cards (set_matched false <$> cards w) w in
  let w := set_cards (set_flipped false <$> cards w) w in
  call_fetchAndAssignPokemon FromResetGame w.

(** ** The page as a transition system

    The events are the clicks on the grid, the timers, the resumption of
    a suspended deal and the Play Again button.  The Try Again button,
    which would run [initApp] once more, is on the page only while an
    error message is; [showErrorMessage] is called from the [catch] of
    [fetchAndAssignPokemon] alone, which no entity of the type [Pokemon]
    makes the [try] block enter, so that no reachable world has shown it
    (lemma [reachable_no_error] below). *)

Inductive Event : Type :=
  | Click (target : option nat)
  | TimerFires (k : nat)               (* the k-th pending timer fires *)
  | DealArrives (k : nat) (env : Env)  (* the k-th suspended call resumes *)
  | PlayAgain.                         (* click on #play-again *)

Definition run_timer (t : Timer) (w : World) : World :=
  match t with
  | FlipBack => flipBack w
  | ShowGameComplete => showGameComplete w
  end.

(** [step e w] is the world after event [e], or [None] when [e] cannot
    happen in [w].  Timers may fire and calls may resume in any order. *)
Definition step (e : Event) (w : World) : option World :=
  match e with
  | Click target =>
      match target with
      | Some card =>
          if decide (card < length (cards w))
          then Some (if listening w then handleCardClick target w else w)
          else None
      | None => Some (if listening w then handleCardClick target w else w)
      end
  | TimerFires k =>
      t ← timers w !! k;
      Some (run_timer t (set_timers (delete k (timers w)) w))
  | DealArrives k env =>
      caller ← suspended w !! k;
      let w := set_suspended (delete k (suspended w)) w in
      let w := fetchAndAssignPokemon env w in
      Some (match caller with
            | FromInitApp => initApp_resumed w
            | FromResetGame => w
            end)
  | PlayAgain =>
      match completionMessages w with
      | 0 => None
      | S n => Some (resetGame (set_completionMessages n w))
      end
  end.

(** The worlds the page can be in: [initApp] runs when the document has
    loaded, then events happen. *)
Inductive reachable : World -> Prop :=
  | reachable_init spinner grid :
      reachable (initApp (page_loaded spinner grid))
  | reachable_step w e w' :
      reachable w -> step e w = Some w' -> reachable w'.

(** Running a list of events, stopping at the first that cannot happen. *)
Fixpoint run (es : list Event) (w : World) : option World :=
  match es with
  | [] => Some w
  | e :: es' => step e w ≫= run es'
  end.

(** ** Example data *)

Definition example_raw (n : nat) : RawPokemon :=
  {| raw_id := Some n;
     raw_name := js "mr-mime";
     raw_artwork := Some (js "artwork.png");
     raw_front_default := Some (js "sprite.png");
     raw_types := [Some (js "psychic"); Some (js "fairy")];
     raw_height := Some 13%Z;
     raw_weight := Some 545%Z;
     raw_abilities := [js "soundproof"; js "filter"];
     raw_stats := [ {| stat := Some (Some (js "hp")); base_stat := Some 40 |};
                    {| stat := Some (Some (js "attack")); base_stat := Some 45 |};
                    {| stat := Some (Some (js "speed")); base_stat := Some 90 |} ];
     raw_species_url := Some (js "species/122") |}.

(** The entity [processPokemonData] makes of [example_raw n]. *)
Definition example_pokemon (n : nat) : Pokemon :=
  {| id := Some n;
     name := js "Mr mime";
     sprite := Some (js "artwork.png");
     types := [Some (js "psychic"); Some (js "fairy")];
     height := Some (inject_Z 13 / 10)%Q;
     weight := Some (inject_Z 545 / 10)%Q;
     abilities := [js "Soundproof"; js "Filter"];
     stats := {| hp := Some 40; attack := Some 45;
                 defense := Some 0; speed := Some 90 |};
     speciesUrl := Some (js "species/122") |}.

(** A record without [id], [height] and [weight], whose last entry of
    [stats] has no [stat] and comes after the four names looked for. *)
Definition example_partial : RawPokemon :=
  {| raw_id := None;
     raw_name := js "ho-oh";
     raw_artwork := None;
     raw_front_default := None;
     raw_types := [None];
     raw_height := None;
     raw_weight := None;
     raw_abilities := [];
     raw_stats := [ {| stat := Some (Some (js "speed")); base_stat := None |};
                    {| stat := Some (Some (js "hp")); base_stat := Some 106 |};
                    {| stat := Some (Some (js "defense")); base_stat := Some 90 |};
                    {| stat := Some (Some (js "attack")); base_stat := Some 130 |};
                    {| stat := None; base_stat := Some 1 |} ];
     raw_species_url := None |}.

(** The first [n] requests of a deal are answered, the others rejected;
    the k-th draw is k. *)
Definition answers (n : nat) : Env :=
  {| random := fun k => k;
     network := fun k randomId =>
       if decide (k < n)
       then Responded {| ok := true; status := 200;
                         body := Json (Complete (example_raw randomId)) |}
       else Rejected |}.

Definition first_page : World := initApp (page_loaded true false).

(** The world after the events [es] on the freshly loaded page. *)
Definition after (es : list Event) : World :=
  default first_page (run es first_page).

(** All six requests answered: identifiers 1 to 6, which the shuffle
    deals as 1 6 3 6 2 5 3 2 1 5 4 4. *)
Definition dealt : list Event := [DealArrives 0 (answers 6)].

(** A whole game: six matching pairs, with one mismatch on the way. *)
Definition whole_game : list Event :=
  dealt ++ [Click (Some 0); Click (Some 8);
            Click (Some 1); Click (Some 2); TimerFires 0;
            Click (Some 1); Click (Some 3);
            Click (Some 2); Click (Some 6);
            Click (Some 4); Click (Some 7);
            Click (Some 5); Click (Some 9);
            Click (Some 10); Click (Some 11)].

(** ** Definitions that follow the specification's wording *)

(** "Uppercases exactly the first character." *)
Definition upper_first (s : JSString) : JSString :=
  match s with
  | [] => []
  | c :: r => upperUnit c ++ r
  end.

(** "Normalizes exactly the first character to uppercase and replaces the
    first occurring separator character with a space." *)
Definition normalize_spec (s : JSString) : JSString :=
  upper_first (replace hyphen space s).

(** "Swap element i with the element at index j." *)
Definition exchange {A} (a : list A) (i j : nat) : list A :=
  imap (fun k x =>
          if decide (k = i) then default x (a !! j)
          else if decide (k = j) then default x (a !! i)
          else x) a.


(** ** Definitions for the invariant of the session *)

(** How many timers with callback [t] are pending. *)
Definition pending (t : Timer) (w : World) : nat :=
  length (filter (fun t' => t' = t) (timers w)).

(** How often the complete state has been signalled and not yet
    dismissed: its timer is pending or its message is on the page. *)
Definition completions (w : World) : nat :=
  pending ShowGameComplete w + completionMessages w.

(** The classes of a card, [flipped] first, and those of all cards. *)
Definition face (c : Card) : bool * bool := (class_flipped c, class_matched c).

Definition board (w : World) : list (bool * bool) := face <$> cards w.

Definition matched_count (faces : list (bool * bool)) : nat :=
  sum_list ((fun x => Nat.b2n x.2) <$> faces).

(** What holds of every world the page can be in. *)
Record Inv (w : World) : Prop := {
  inv_cards : length (board w) = CARD_COUNT;
  inv_count : matched_count (board w) = 2 * matchedPairs w;
  inv_first : forall i,
    firstSelectedCard w = Some i -> board w !! i = Some (true, false);
  inv_lock :
    if isProcessingPair w
    then is_Some (firstSelectedCard w) ∧ is_Some (secondSelectedCard w)
         ∧ pending FlipBack w = 1
    else secondSelectedCard w = None ∧ pending FlipBack w = 0;
  inv_complete :
    completions w = if decide (matchedPairs w = TOTAL_PAIRS) then 1 else 0;
  inv_error : errorMessages w = 0
}.

(** ** Further definitions *)

(** A slot that shows its face without being matched or selected. *)
Definition stranded (w : World) (i : nat) : Prop :=
  slot_visibility w i = Some revealed
  ∧ firstSelectedCard w ≠ Some i ∧ secondSelectedCard w ≠ Some i.

(** Every draw is 0, every request answered: six times identifier 1. *)
Definition same_draw : Env :=
  {| random := fun _ => 0; network := network (answers 6) |}.

(** As [answers 6], but with no answer for the identifier 0. *)
Definition nothing_at_zero : Env :=
  {| random := fun k => k;
     network := fun k randomId =>
       if decide (randomId = 0) then Rejected
       else network (answers 6) k randomId |}.

(** What the handlers of a click and of the flip-back timer leave alone:
    the entities on the cards, the page, the suspended deals and the
    messages. *)
Definition frame (w w' : World) : Prop :=
  dataset_pokemon <$> cards w' = dataset_pokemon <$> cards w
  ∧ spinnerHidden w' = spinnerHidden w
  ∧ gridHidden w' = gridHidden w
  ∧ listening w' = listening w
  ∧ suspended w' = suspended w
  ∧ completionMessages w' = completionMessages w
  ∧ errorMessages w' = errorMessages w.

(** An entry of [stats] that [find] passes over when it looks for
    [statName]: it has a [stat], whose name is another or absent. *)
Definition other_stat (statName : JSString) (s : RawStat) : Prop :=
  exists name', stat s = Some name' ∧ name' ≠ Some statName.

(** * Properties *)

(** ** Name normalisation *)

Lemma length_replace pat rep s : length (replace pat rep s) = length s.
Proof.
  induction s as [|c r IH]; simpl; [done|].
  case_decide; simpl; congruence.
Qed.

Lemma replace_absent pat rep s : pat ∉ s -> replace pat rep s = s.
Proof.
  induction s as [|c r IH]; simpl; [done|].
  intros Hnot. apply not_elem_of_cons in Hnot as [Hne Hr].
  case_decide; [congruence|]. by rewrite IH.
Qed.

Lemma replace_first pat rep pre post :
  pat ∉ pre -> replace pat rep (pre ++ pat :: post) = pre ++ rep :: post.
Proof.
  induction pre as [|c r IH]; simpl; intros Hnot.
  - by rewrite decide_True.
  - apply not_elem_of_cons in Hnot as [Hne Hr].
    case_decide; [congruence|]. by rewrite IH.
Qed.

Lemma toUpperCase_unit c : toUpperCase [c] = upperUnit c.
Proof. unfold toUpperCase. simpl. apply app_nil_r. Qed.

Lemma capitalizeFirstLetter_nil : capitalizeFirstLetter [] = [].
Proof. reflexivity. Qed.

Lemma capitalizeFirstLetter_cons c r :
  capitalizeFirstLetter (c :: r)
  = upperUnit c ++ slice 1 (replace hyphen space (c :: r)).
Proof. unfold capitalizeFirstLetter, charAt. simpl. by rewrite app_nil_r. Qed.

(** A name that begins with the separator comes back as it was: the space
    that replaced the separator is the character [slice] drops. *)
Lemma capitalizeFirstLetter_leading_hyphen r :
  capitalizeFirstLetter (hyphen :: r) = hyphen :: r.
Proof. rewrite capitalizeFirstLetter_cons. reflexivity. Qed.

Lemma length_capitalizeFirstLetter s :
  length (capitalizeFirstLetter s)
  = length (toUpperCase (charAt s 0)) + (length s - 1).
Proof.
  unfold capitalizeFirstLetter, slice.
  rewrite length_app, length_drop, length_replace. done.
Qed.

(** C8, as amended.  For every raw name that does not begin with the
    separator, normalisation is what the specification words: the first
    character is upper-cased and the first separator becomes a space.  A
    name without separator only has its first character upper-cased, and
    in a name with several separators everything after the first one,
    later separators and lower-case letters included, is kept. *)
Theorem capitalizeFirstLetter_normalizes (s : JSString)
    (Hfirst : s !! 0 ≠ Some hyphen) :
  capitalizeFirstLetter s = normalize_spec s
  ∧ (hyphen ∉ s -> capitalizeFirstLetter s = upper_first s)
  ∧ (forall c pre post,
       s = c :: pre ++ hyphen :: post -> hyphen ∉ pre ->
       capitalizeFirstLetter s = upperUnit c ++ pre ++ space :: post).
Proof.
  destruct s as [|c r].
  { split_and!; [done|done|]. intros ? ? ? [=]. }
  assert (Hc : c ≠ hyphen) by (intros ->; by apply Hfirst).
  rewrite capitalizeFirstLetter_cons. unfold normalize_spec.
  simpl. rewrite decide_False by done. simpl. unfold slice.
  split_and!.
  - done.
  - intros Hnot. apply not_elem_of_cons in Hnot as [_ Hr].
    by rewrite replace_absent.
  - intros c' pre post [= -> ->] Hpre. by rewrite replace_first.
Qed.

(** Sharp s is the one character of Basic Latin and Latin-1 whose upper
    case is longer than one code unit. *)
Lemma upperUnit_latin1 c : (c < 256)%N -> c ≠ 223%N -> length (upperUnit c) = 1.
Proof.
  intros Hc Hne. unfold upperUnit.
  repeat case_decide; simpl; try reflexivity; lia.
Qed.

(** C10, as amended.  The function is defined on every string and maps
    the empty string to itself.  Its result is as long as the upper case
    of the first character and the rest of the input together; so it
    keeps the length of a string exactly when the string is empty or the
    upper case of its first code unit is one code unit long, which it is
    for every character of Basic Latin and Latin-1 but sharp s (U+00DF). *)
Theorem capitalizeFirstLetter_length (s : JSString) :
  capitalizeFirstLetter [] = []
  ∧ length (capitalizeFirstLetter s)
    = length (toUpperCase (charAt s 0)) + (length s - 1)
  ∧ (length (capitalizeFirstLetter s) = length s
     <-> forall c, s !! 0 = Some c -> length (upperUnit c) = 1)
  ∧ (forall c, s !! 0 = Some c -> (c < 256)%N -> c ≠ 223%N ->
       length (capitalizeFirstLetter s) = length s).
Proof.
  split; [done|]. split; [apply length_capitalizeFirstLetter|].
  assert (length (capitalizeFirstLetter s) = length s
          <-> forall c, s !! 0 = Some c -> length (upperUnit c) = 1) as Hiff.
  { destruct s as [|c r]; [done|].
    rewrite length_capitalizeFirstLetter.
    change (charAt (c :: r) 0) with [c]. rewrite toUpperCase_unit. simpl.
    split.
    - intros Hlen c' [= <-]. lia.
    - intros Hone. rewrite (Hone c eq_refl). lia. }
  split; [exact Hiff|].
  intros c Hc Hlatin Hne. apply Hiff.
  intros c' Hc'. simplify_eq. by apply upperUnit_latin1.
Qed.

(** ** Batch fetch *)

Lemma Promise_all_fulfilled {A} (values : list A) :
  Promise_all (Ok <$> values) = Ok values.
Proof.
  induction values as [|v values IH]; [done|].
  rewrite fmap_cons.
  change (Promise_all (Ok v :: (Ok <$> values)))
    with (Promise_all (Ok <$> values) ≫= fun vs => Ok (v :: vs)).
  by rewrite IH.
Qed.

Lemma omap_fmap_self {A B} (f : A -> option B) (l : list A) :
  omap (fun x : option B => x) (f <$> l) = omap f l.
Proof.
  induction l as [|k l IH]; [done|].
  rewrite fmap_cons. csimpl. by rewrite IH.
Qed.

Lemma fetchMultipleRandomPokemon_eq env count :
  fetchMultipleRandomPokemon env count
  = omap (fetchRandomPokemon env) (seq 0 count).
Proof.
  unfold fetchMultipleRandomPokemon.
  rewrite (list_fmap_compose (fetchRandomPokemon env) Ok).
  rewrite Promise_all_fulfilled.
  apply omap_fmap_self.
Qed.

Lemma length_omap_le {A B} (f : A -> option B) (l : list A) :
  length (omap f l) ≤ length l.
Proof.
  induction l as [|x l IH]; csimpl; [done|].
  destruct (f x); simpl; lia.
Qed.

Lemma omap_nil_iff {A B} (f : A -> option B) (l : list A) :
  omap f l = [] <-> Forall (fun x => f x = None) l.
Proof.
  induction l as [|x l IH]; csimpl.
  - split; [constructor|done].
  - destruct (f x) eqn:Hx; simpl.
    + split; [done|]. intros H. inversion H; simplify_eq.
    + rewrite IH. split; [by constructor|]. intros H. by inversion H.
Qed.

(** C9.  For every count the batch is the list of the results of the
    calls 0, 1, ..., count-1 that did not fail, in call order: no more
    than count of them, possibly none, and the [catch] that would turn an
    exception into the empty list is never entered. *)
Theorem fetchMultipleRandomPokemon_successes (env : Env) (count : nat) :
  fetchMultipleRandomPokemon env count
  = omap (fetchRandomPokemon env) (seq 0 count)
  ∧ length (fetchMultipleRandomPokemon env count) ≤ count
  ∧ (forall pokemon, pokemon ∈ fetchMultipleRandomPokemon env count
       <-> exists k, k < count ∧ fetchRandomPokemon env k = Some pokemon)
  ∧ (fetchMultipleRandomPokemon env count = []
       <-> forall k, k < count -> fetchRandomPokemon env k = None).
Proof.
  rewrite fetchMultipleRandomPokemon_eq. split_and!.
  - done.
  - etrans; [apply length_omap_le|]. by rewrite length_seq.
  - intros pokemon. rewrite list_elem_of_omap. split.
    + intros (k & Hk & Hp). apply elem_of_seq in Hk. exists k. split; [lia|done].
    + intros (k & Hk & Hp). exists k. split; [|done]. apply elem_of_seq. lia.
  - rewrite omap_nil_iff, Forall_forall. split.
    + intros H k Hk. apply H. apply in_seq. lia.
    + intros H k Hk. apply H. apply in_seq in Hk. lia.
Qed.

(** ** Shuffle and pair building *)

Section Shuffle.
Context {A : Type}.
Implicit Types a : list A.

Lemma swap_Permutation a i j : swap a i j ≡ₚ a.
Proof.
  unfold swap.
  destruct (a !! j) as [aj|] eqn:Hj; [|done].
  destruct (a !! i) as [ai|] eqn:Hi; [|done].
  by apply Permutation_insert_swap.
Qed.

Lemma length_swap a i j : length (swap a i j) = length a.
Proof. apply Permutation_length, swap_Permutation. Qed.

Lemma shuffle_loop_Permutation rnd k i a : shuffle_loop rnd k i a ≡ₚ a.
Proof.
  revert k a. induction i as [|i IH]; intros k a; simpl; [done|].
  rewrite IH. apply swap_Permutation.
Qed.

Lemma shuffleArray_Permutation rnd a : shuffleArray rnd a ≡ₚ a.
Proof. apply shuffle_loop_Permutation. Qed.


(** The two writes of the source exchange the two elements. *)
Lemma swap_exchange a i j :
  i < length a -> j < length a -> swap a i j = exchange a i j.
Proof.
  intros Hi Hj. unfold swap, exchange.
  destruct (lookup_lt_is_Some_2 a i Hi) as [ai Hai].
  destruct (lookup_lt_is_Some_2 a j Hj) as [aj Haj].
  rewrite Hai, Haj. apply list_eq. intros n.
  rewrite list_lookup_imap. simpl.
  destruct (decide (n = j)) as [->|Hnj].
  - rewrite list_lookup_insert_eq by (by rewrite length_insert).
    rewrite Haj. simpl. case_decide; subst; [congruence|done].
  - rewrite list_lookup_insert_ne by done.
    destruct (decide (n = i)) as [->|Hni].
    + rewrite list_lookup_insert_eq by done. by rewrite Hai.
    + rewrite list_lookup_insert_ne by done. by destruct (a !! n).
Qed.

Lemma random_below_le r i : random_below r (i + 1) ≤ i.
Proof.
  unfold random_below.
  pose proof (Nat.mod_upper_bound r (i + 1)). lia.
Qed.


End Shuffle.


Lemma count_occ_pairs {A B} (eq_dec : forall x y : B, {x = y} + {x ≠ y})
    (ident : A -> B) (l : list A) (x : B) :
  count_occ eq_dec (ident <$> (l ≫= fun p => [p; p])) x
  = 2 * count_occ eq_dec (ident <$> l) x.
Proof.
  induction l as [|p l IH]; [done|].
  change ((p :: l) ≫= fun p => [p; p]) with (p :: p :: (l ≫= fun p => [p; p])).
  rewrite !fmap_cons. simpl.
  destruct (eq_dec (ident p) x); rewrite IH; lia.
Qed.

Lemma length_pairs {A} (l : list A) :
  length (l ≫= fun p => [p; p]) = 2 * length l.
Proof. induction l as [|p l IH]; csimpl; [done|]. rewrite IH. lia. Qed.

Lemma length_shuffledPairs_of pokemonList rnd :
  length (shuffledPairs_of pokemonList rnd) = 2 * length pokemonList.
Proof.
  unfold shuffledPairs_of.
  rewrite (Permutation_length (shuffleArray_Permutation _ _)).
  apply length_pairs.
Qed.

(** C6.  For every list of N entities with distinct identifiers, N
    between 1 and CARD_COUNT/2, the shuffled pairs are 2N elements among
    which the identifier of each input entity occurs exactly twice. *)
Theorem shuffledPairs_of_two_each (entities : list Pokemon) (rnd : nat -> nat)
    (Hrange : 1 ≤ length entities ≤ CARD_COUNT / 2)
    (Hunique : NoDup (id <$> entities)) :
  length (shuffledPairs_of entities rnd) = 2 * length entities
  ∧ forall pokemon, pokemon ∈ entities ->
      count_occ id_eq_dec (id <$> shuffledPairs_of entities rnd) (id pokemon) = 2.
Proof.
  split; [apply length_shuffledPairs_of|].
  intros pokemon Hin. unfold shuffledPairs_of.
  rewrite (proj1 (Permutation_count_occ id_eq_dec _ _)
             (fmap_Permutation id _ _ (shuffleArray_Permutation rnd _))).
  rewrite count_occ_pairs.
  apply NoDup_ListNoDup in Hunique.
  rewrite (proj1 (NoDup_count_occ' id_eq_dec _) Hunique); [done|].
  apply list_elem_of_In, list_elem_of_fmap. eauto.
Qed.

(** ** Clicks *)

Lemma visibility_hidden c :
  visibility c = hidden <-> class_flipped c = false ∧ class_matched c = false.
Proof.
  unfold visibility.
  destruct (class_matched c), (class_flipped c); intuition congruence.
Qed.

Lemma visibility_revealed c :
  visibility c = revealed <-> class_flipped c = true ∧ class_matched c = false.
Proof.
  unfold visibility.
  destruct (class_matched c), (class_flipped c); intuition congruence.
Qed.

Lemma visibility_matched c : visibility c = matched <-> class_matched c = true.
Proof.
  unfold visibility.
  destruct (class_matched c), (class_flipped c); intuition congruence.
Qed.

Lemma lookup_update_card_eq f card w c :
  cards w !! card = Some c -> cards (update_card f card w) !! card = Some (f c).
Proof. intros H. simpl. by rewrite list_lookup_alter_eq, H. Qed.

Lemma lookup_update_card_ne f card w i :
  card ≠ i -> cards (update_card f card w) !! i = cards w !! i.
Proof. intros H. simpl. by rewrite list_lookup_alter_ne. Qed.

(** The handler on a card that passes its guards. *)
Lemma handleCardClick_hidden w card c :
  cards w !! card = Some c -> visibility c = hidden ->
  isProcessingPair w = false ->
  handleCardClick (Some card) w
  = let w1 := update_card (set_flipped true) card w in
    match firstSelectedCard w with
    | None => set_firstSelectedCard (Some card) w1
    | Some first =>
        if decide (first ≠ card)
        then checkForMatch (set_secondSelectedCard (Some card) w1)
        else w1
    end.
Proof.
  intros Hc [Hf Hm]%visibility_hidden Hlock.
  unfold handleCardClick. simpl. rewrite Hc. simpl.
  by rewrite Hf, Hm, Hlock.
Qed.

Lemma handleCardClick_locked target w :
  isProcessingPair w = true -> handleCardClick target w = w.
Proof.
  intros Hlock. unfold handleCardClick.
  destruct target as [card|]; [|done].
  destruct (cards w !! card) as [c|]; [|done].
  rewrite Hlock. by destruct (class_flipped c), (class_matched c).
Qed.

Lemma handleCardClick_not_hidden card c w :
  cards w !! card = Some c -> visibility c ≠ hidden ->
  handleCardClick (Some card) w = w.
Proof.
  intros Hc Hvis. unfold handleCardClick. simpl. rewrite Hc. simpl.
  unfold visibility in Hvis.
  by destruct (class_flipped c), (class_matched c).
Qed.

Lemma handleCardClick_no_card card w :
  cards w !! card = None -> handleCardClick (Some card) w = w.
Proof. intros Hc. unfold handleCardClick. simpl. by rewrite Hc. Qed.

Lemma handleMatch_keeps_flipped w i c :
  cards w !! i = Some c -> class_flipped c = true ->
  exists c', cards (handleMatch w) !! i = Some c' ∧ class_flipped c' = true.
Proof.
  intros Hc Hf. unfold handleMatch.
  destruct (firstSelectedCard w) as [first|]; [|eauto].
  destruct (secondSelectedCard w) as [second|]; [|eauto].
  assert (exists c', alter (set_matched true) second
                       (alter (set_matched true) first (cards w)) !! i = Some c'
                     ∧ class_flipped c' = true) as Hgoal.
  { rewrite !list_lookup_alter. repeat case_decide; subst; rewrite Hc; simpl; eauto. }
  simpl. case_decide; simpl; exact Hgoal.
Qed.

Lemma checkForMatch_keeps_flipped w i c :
  cards w !! i = Some c -> class_flipped c = true ->
  exists c', cards (checkForMatch w) !! i = Some c' ∧ class_flipped c' = true.
Proof.
  intros Hc Hf. unfold checkForMatch.
  destruct (parse_pokemon w (firstSelectedCard w)) as [p|]; simpl; [|eauto].
  destruct (parse_pokemon w (secondSelectedCard w)) as [q|]; simpl; [|eauto].
  case_decide; [by apply (handleMatch_keeps_flipped w i c)|eauto].
Qed.

(** After a click on a card, nothing has changed or the card is flipped. *)
Lemma handleCardClick_flips card w :
  handleCardClick (Some card) w = w
  ∨ exists c', cards (handleCardClick (Some card) w) !! card = Some c'
               ∧ class_flipped c' = true.
Proof.
  destruct (cards w !! card) as [c|] eqn:Hc;
    [|left; by apply handleCardClick_no_card].
  destruct (decide (visibility c = hidden)) as [Hvis|Hvis];
    [|left; by apply (handleCardClick_not_hidden card c)].
  destruct (isProcessingPair w) eqn:Hlock;
    [left; by apply handleCardClick_locked|].
  right. rewrite (handleCardClick_hidden w card c) by done.
  pose proof (lookup_update_card_eq (set_flipped true) card w c Hc) as Hc1.
  cbv zeta.
  destruct (firstSelectedCard w) as [first|]; [|simpl in *; eauto].
  case_decide; [|eauto].
  eapply checkForMatch_keeps_flipped; [exact Hc1|done].
Qed.

(** C5.  A click is ignored, the whole world staying as it was, when the
    slot clicked is revealed or matched and when the input lock is
    engaged; and a second click on the slot just clicked changes nothing
    more, so that one slot is never both picks. *)
Theorem click_is_ignored (w : World) (card : nat) (c : Card)
    (Hcard : cards w !! card = Some c) :
  (visibility c = revealed -> handleCardClick (Some card) w = w)
  ∧ (visibility c = matched -> handleCardClick (Some card) w = w)
  ∧ (isProcessingPair w = true -> forall target, handleCardClick target w = w)
  ∧ handleCardClick (Some card) (handleCardClick (Some card) w)
    = handleCardClick (Some card) w.
Proof.
  split_and!.
  - intros Hvis. eapply handleCardClick_not_hidden; [done|congruence].
  - intros Hvis. eapply handleCardClick_not_hidden; [done|congruence].
  - intros Hlock target. by apply handleCardClick_locked.
  - destruct (handleCardClick_flips card w) as [Heq|(c' & Hc' & Hf)];
      [by rewrite !Heq|].
    eapply handleCardClick_not_hidden; [done|].
    unfold visibility. rewrite Hf. by destruct (class_matched c').
Qed.

(** ** Resolving a pair *)

Lemma handleMatch_fields w first second :
  firstSelectedCard w = Some first -> secondSelectedCard w = Some second ->
  cards (handleMatch w)
  = alter (set_matched true) second (alter (set_matched true) first (cards w))
  ∧ matchedPairs (handleMatch w) = matchedPairs w + 1
  ∧ firstSelectedCard (handleMatch w) = None
  ∧ secondSelectedCard (handleMatch w) = None
  ∧ isProcessingPair (handleMatch w) = isProcessingPair w
  ∧ timers (handleMatch w)
    = timers w ++ (if decide (matchedPairs w + 1 = TOTAL_PAIRS)
                   then [ShowGameComplete] else [])
  ∧ completionMessages (handleMatch w) = completionMessages w
  ∧ errorMessages (handleMatch w) = errorMessages w.
Proof.
  intros Hf Hs. unfold handleMatch. rewrite Hf, Hs. simpl.
  case_decide; simpl; split_and!; try done. by rewrite app_nil_r.
Qed.

Lemma checkForMatch_bound w p q :
  parse_pokemon w (firstSelectedCard w) = Ok p ->
  parse_pokemon w (secondSelectedCard w) = Ok q ->
  checkForMatch w
  = if decide (id p = id q) then handleMatch w else handleNonMatch w.
Proof. intros Hp Hq. unfold checkForMatch. by rewrite Hp, Hq. Qed.

Lemma checkForMatch_unbound w :
  (forall p, parse_pokemon w (firstSelectedCard w) ≠ Ok p)
  ∨ (forall q, parse_pokemon w (secondSelectedCard w) ≠ Ok q) ->
  checkForMatch w = resetSelection w.
Proof.
  intros H. unfold checkForMatch.
  destruct (parse_pokemon w (firstSelectedCard w)) as [p|]; simpl; [|done].
  destruct (parse_pokemon w (secondSelectedCard w)) as [q|]; simpl; [|done].
  destruct H as [H|H]; [by destruct (H p)|by destruct (H q)].
Qed.

Lemma checkForMatch_cases w :
  checkForMatch w = resetSelection w
  ∨ checkForMatch w = handleMatch w
  ∨ checkForMatch w = handleNonMatch w.
Proof.
  unfold checkForMatch.
  destruct (parse_pokemon w (firstSelectedCard w)) as [p|]; simpl; [|by left].
  destruct (parse_pokemon w (secondSelectedCard w)) as [q|]; simpl; [|by left].
  case_decide; auto.
Qed.

Lemma parse_pokemon_bound w card p :
  slot_pokemon w card = Some p -> parse_pokemon w (Some card) = Ok p.
Proof. unfold slot_pokemon, parse_pokemon. by intros ->. Qed.

Lemma parse_pokemon_unbound w card p :
  slot_pokemon w card = None -> parse_pokemon w (Some card) ≠ Ok p.
Proof. unfold slot_pokemon, parse_pokemon. by intros ->. Qed.

Lemma clicks_locked w clicks :
  isProcessingPair w = true ->
  foldl (fun w target => handleCardClick target w) w clicks = w.
Proof.
  intros Hlock. induction clicks as [|t clicks IH]; [done|].
  simpl. by rewrite handleCardClick_locked.
Qed.

(** C3.  A second, distinct, bound slot is clicked while a first bound
    slot is revealed and pending.  If the identifiers are equal, both
    slots are matched at once, the counter has gone up by exactly one and
    no selection is pending.  If they differ, the lock is engaged and the
    flip-back timer scheduled; whatever is clicked in between, when the
    timer fires both slots are hidden again, no selection is pending, the
    lock is released and the counter is what it was. *)
Theorem second_pick_resolves (w : World) (first second : nat) (p q : Pokemon)
    (Hfirst : firstSelectedCard w = Some first)
    (Hdistinct : first ≠ second)
    (Hunlocked : isProcessingPair w = false)
    (Hrevealed : slot_visibility w first = Some revealed)
    (Hhidden : slot_visibility w second = Some hidden)
    (Hp : slot_pokemon w first = Some p)
    (Hq : slot_pokemon w second = Some q) :
  let w' := handleCardClick (Some second) w in
  (id p = id q ->
     slot_visibility w' first = Some matched
     ∧ slot_visibility w' second = Some matched
     ∧ matchedPairs w' = matchedPairs w + 1
     ∧ firstSelectedCard w' = None ∧ secondSelectedCard w' = None)
  ∧ (id p ≠ id q ->
     isProcessingPair w' = true
     ∧ timers w' = timers w ++ [FlipBack]
     ∧ matchedPairs w' = matchedPairs w
     ∧ forall clicks,
         let w'' := flipBack (foldl (fun w target => handleCardClick target w)
                                    w' clicks) in
         slot_visibility w'' first = Some hidden
         ∧ slot_visibility w'' second = Some hidden
         ∧ firstSelectedCard w'' = None ∧ secondSelectedCard w'' = None
         ∧ isProcessingPair w'' = false
         ∧ matchedPairs w'' = matchedPairs w).
Proof.
  unfold slot_visibility in Hrevealed, Hhidden.
  apply fmap_Some in Hrevealed as (cf & Hcf & Hvf).
  apply fmap_Some in Hhidden as (cs & Hcs & Hvs).
  symmetry in Hvf, Hvs.
  pose proof Hvs as [Hsf Hsm]%visibility_hidden.
  pose proof Hvf as [Hff Hfm]%visibility_revealed.
  intros w'. subst w'.
  rewrite (handleCardClick_hidden w second cs) by done.
  cbv zeta. rewrite Hfirst, decide_True by done.
  set (w2 := set_secondSelectedCard (Some second)
               (update_card (set_flipped true) second w)).
  assert (cards w2 !! first = Some cf) as Hcf2.
  { subst w2. simpl. by rewrite list_lookup_alter_ne. }
  assert (cards w2 !! second = Some (set_flipped true cs)) as Hcs2.
  { subst w2. simpl. by rewrite list_lookup_alter_eq, Hcs. }
  assert (parse_pokemon w2 (firstSelectedCard w2) = Ok p) as Hp2.
  { replace (firstSelectedCard w2) with (Some first) by (by subst w2).
    apply parse_pokemon_bound. unfold slot_pokemon in *.
    rewrite Hcf2. by rewrite Hcf in Hp. }
  assert (parse_pokemon w2 (secondSelectedCard w2) = Ok q) as Hq2.
  { replace (secondSelectedCard w2) with (Some second) by (by subst w2).
    apply parse_pokemon_bound. unfold slot_pokemon in *.
    rewrite Hcs2. by rewrite Hcs in Hq. }
  rewrite (checkForMatch_bound w2 p q) by done.
  split; intros Hid.
  - rewrite decide_True by done.
    destruct (handleMatch_fields w2 first second)
      as (Hcards & Hcount & Hnone1 & Hnone2 & _); [by subst w2..|].
    unfold slot_visibility. rewrite Hcards, Hcount, Hnone1, Hnone2.
    split_and!; try done.
    + rewrite list_lookup_alter_ne, list_lookup_alter_eq, Hcf2 by done. done.
    + rewrite list_lookup_alter_eq, list_lookup_alter_ne, Hcs2 by done. done.
  - rewrite decide_False by done.
    split_and!; try done.
    intros clicks. rewrite clicks_locked by done.
    unfold flipBack, slot_visibility. simpl.
    rewrite Hfirst. simpl. split_and!; try done.
    + rewrite list_lookup_alter_ne, list_lookup_alter_eq by done.
      rewrite list_lookup_alter_ne, Hcf by done. simpl.
      unfold visibility. simpl. by rewrite Hfm.
    + rewrite list_lookup_alter_eq, list_lookup_alter_ne by done.
      rewrite list_lookup_alter_eq, Hcs. simpl.
      unfold visibility. simpl. by rewrite Hsm.
Qed.

(** ** Seeding *)

Lemma set_cards_set_cards v1 v2 w : set_cards v2 (set_cards v1 w) = set_cards v2 w.
Proof. done. Qed.

Lemma set_cards_same w : set_cards (cards w) w = w.
Proof. by destruct w. Qed.

Lemma assign_first_S shuffledPairs n w :
  assign_first shuffledPairs (S n) w
  = let w' := assign_first shuffledPairs n w in
    match cards w' !! n, shuffledPairs !! n with
    | Some _, Some pokemon => assignPokemonToCard n pokemon w'
    | _, _ => w'
    end.
Proof. unfold assign_first. by rewrite seq_S, foldl_app. Qed.

Lemma assign_first_set_cards shuffledPairs n w :
  assign_first shuffledPairs n w
  = set_cards (cards (assign_first shuffledPairs n w)) w.
Proof.
  induction n as [|n IH]; [by rewrite set_cards_same|].
  rewrite assign_first_S. cbv zeta.
  destruct (cards _ !! n), (shuffledPairs !! n); try done.
  unfold assignPokemonToCard, update_card.
  rewrite IH at 2. by rewrite set_cards_set_cards.
Qed.

Lemma assign_first_lookup shuffledPairs n w i :
  cards (assign_first shuffledPairs n w) !! i
  = (fun c => if decide (i < n)
              then match shuffledPairs !! i with
                   | Some pokemon => set_pokemon pokemon c
                   | None => c
                   end
              else c) <$> cards w !! i.
Proof.
  induction n as [|n IH].
  { change (assign_first shuffledPairs 0 w) with w.
    by destruct (cards w !! i). }
  rewrite assign_first_S. cbv zeta.
  destruct (decide (i = n)) as [->|Hne].
  - rewrite IH.
    destruct (cards w !! n) as [c|] eqn:Hc; simpl; [|done].
    destruct (shuffledPairs !! n) as [pokemon|]; simpl.
    + rewrite list_lookup_alter_eq, IH. simpl.
      repeat case_decide; try lia; done.
    + rewrite IH. simpl. repeat case_decide; try lia; done.
  - assert (cards
              match cards (assign_first shuffledPairs n w) !! n,
                    shuffledPairs !! n with
              | Some _, Some pokemon =>
                  assignPokemonToCard n pokemon (assign_first shuffledPairs n w)
              | _, _ => assign_first shuffledPairs n w
              end !! i
            = cards (assign_first shuffledPairs n w) !! i) as ->.
    { destruct (cards _ !! n), (shuffledPairs !! n); try done.
      simpl. by rewrite list_lookup_alter_ne. }
    rewrite IH. destruct (cards w !! i); simpl; [|done].
    repeat case_decide; try lia; done.
Qed.

Lemma assign_all_lookup shuffledPairs w i :
  cards (assign_all shuffledPairs w) !! i
  = (fun c => match shuffledPairs !! i with
              | Some pokemon =>
                  if decide (i < CARD_COUNT) then set_pokemon pokemon c else c
              | None => c
              end) <$> cards w !! i.
Proof.
  unfold assign_all. rewrite assign_first_lookup.
  destruct (cards w !! i) as [c|]; [|done].
  cbn [fmap option_fmap option_map]. f_equal.
  destruct (shuffledPairs !! i) as [pokemon|] eqn:Hp.
  - apply lookup_lt_Some in Hp.
    destruct (decide (i < CARD_COUNT)).
    + by rewrite decide_True by lia.
    + by rewrite decide_False by lia.
  - by case_decide.
Qed.

Lemma assign_all_set_cards shuffledPairs w :
  assign_all shuffledPairs w = set_cards (cards (assign_all shuffledPairs w)) w.
Proof. apply assign_first_set_cards. Qed.

Lemma fetchAndAssignPokemon_eq env w :
  fetchAndAssignPokemon env w
  = assign_all (shuffledPairs_of (fetchMultipleRandomPokemon env 6)
                                 (fun k => random env (6 + k))) w.
Proof. done. Qed.

Lemma lookup_fresh_cards i :
  i < CARD_COUNT ->
  (createCardElement <$> seq 0 CARD_COUNT) !! i = Some (createCardElement i).
Proof.
  intros Hi. rewrite list_lookup_fmap, lookup_seq_lt by done. done.
Qed.

Lemma fmap_class_matched_set_flipped b i (l : list Card) :
  class_matched <$> alter (set_flipped b) i l = class_matched <$> l.
Proof.
  rewrite (list_fmap_alter class_matched (set_flipped b) (fun m => m)).
  - by apply list_alter_id.
  - by apply Forall_true.
Qed.

(** A click on a hidden slot that holds no entity, while input is open. *)
Lemma handleCardClick_unbound v i :
  slot_pokemon v i = None -> slot_visibility v i = Some hidden ->
  isProcessingPair v = false ->
  let v' := handleCardClick (Some i) v in
  slot_visibility v' i = Some revealed
  ∧ (firstSelectedCard v = None -> firstSelectedCard v' = Some i)
  ∧ (forall first, firstSelectedCard v = Some first -> first ≠ i ->
       firstSelectedCard v' = None ∧ secondSelectedCard v' = None
       ∧ matchedPairs v' = matchedPairs v
       ∧ class_matched <$> cards v' = class_matched <$> cards v).
Proof.
  intros Hnone Hvis Hlock.
  unfold slot_visibility in Hvis.
  apply fmap_Some in Hvis as (c & Hc & Hvis). symmetry in Hvis.
  pose proof Hvis as [Hf Hm]%visibility_hidden.
  assert (dataset_pokemon c = None) as Hdata.
  { unfold slot_pokemon in Hnone. by rewrite Hc in Hnone. }
  cbv zeta. rewrite (handleCardClick_hidden v i c) by done. cbv zeta.
  assert (visibility (set_flipped true c) = revealed) as Hrev.
  { by apply visibility_revealed. }
  destruct (firstSelectedCard v) as [first|] eqn:Hfirst.
  - destruct (decide (first ≠ i)) as [Hne|Heq].
    + rewrite checkForMatch_unbound.
      * unfold slot_visibility. simpl.
        rewrite list_lookup_alter_eq, Hc. simpl. rewrite Hrev.
        split_and!; try done.
        intros ? _ _. split_and!; try done.
        apply fmap_class_matched_set_flipped.
      * right. intros q. apply parse_pokemon_unbound.
        unfold slot_pokemon. simpl.
        by rewrite list_lookup_alter_eq, Hc.
    + unfold slot_visibility. simpl.
      rewrite list_lookup_alter_eq, Hc. simpl. rewrite Hrev.
      split_and!; try done. intros ? [= <-] ?. done.
  - unfold slot_visibility. simpl.
    rewrite list_lookup_alter_eq, Hc. simpl. rewrite Hrev.
    split_and!; done.
Qed.

(** C2, as amended.  When the batch holds fewer than TOTAL_PAIRS entities,
    so that fewer than CARD_COUNT shuffled entities are at hand, exactly
    the leading slots, as many as there are entities, receive one and on a
    fresh grid the remaining slots hold none.  A slot without entity can
    be selected: clicked while hidden and with input open, it is revealed,
    and it is the pending selection when it is the first pick.  It never
    matches: when it is the second pick, the comparison clears the pending
    selections and leaves the counter and the matched slots as they
    were. *)
Theorem unbound_slots (env : Env) (w : World)
    (Hfresh : cards w = createCardElement <$> seq 0 CARD_COUNT)
    (Hfew : length (fetchMultipleRandomPokemon env 6) < TOTAL_PAIRS) :
  let shuffledPairs :=
    shuffledPairs_of (fetchMultipleRandomPokemon env 6)
                     (fun k => random env (6 + k)) in
  let w' := fetchAndAssignPokemon env w in
  length shuffledPairs < CARD_COUNT
  ∧ (forall i, i < length shuffledPairs -> slot_pokemon w' i = shuffledPairs !! i)
  ∧ (forall i, length shuffledPairs ≤ i -> slot_pokemon w' i = None)
  ∧ (forall v i,
       slot_pokemon v i = None -> slot_visibility v i = Some hidden ->
       isProcessingPair v = false ->
       let v' := handleCardClick (Some i) v in
       slot_visibility v' i = Some revealed
       ∧ (firstSelectedCard v = None -> firstSelectedCard v' = Some i)
       ∧ (forall first, firstSelectedCard v = Some first -> first ≠ i ->
            firstSelectedCard v' = None ∧ secondSelectedCard v' = None
            ∧ matchedPairs v' = matchedPairs v
            ∧ class_matched <$> cards v' = class_matched <$> cards v)).
Proof.
  intros shuffledPairs w'.
  assert (length shuffledPairs < CARD_COUNT) as Hlen.
  { subst shuffledPairs. rewrite length_shuffledPairs_of.
    unfold CARD_COUNT, TOTAL_PAIRS in *. lia. }
  assert (forall i, slot_pokemon w' i
                    = if decide (i < CARD_COUNT) then shuffledPairs !! i else None)
    as Hslot.
  { intros i. subst w'. rewrite fetchAndAssignPokemon_eq.
    unfold slot_pokemon. rewrite assign_all_lookup, Hfresh.
    fold shuffledPairs.
    destruct (decide (i < CARD_COUNT)) as [Hi|Hi].
    - rewrite lookup_fresh_cards by done. simpl.
      by destruct (shuffledPairs !! i).
    - rewrite (lookup_ge_None_2 (createCardElement <$> seq 0 CARD_COUNT) i);
        [done|]. rewrite length_fmap, length_seq. lia. }
  split_and!.
  - done.
  - intros i Hi. rewrite Hslot, decide_True by lia. done.
  - intros i Hi. rewrite Hslot. case_decide; [|done].
    by apply lookup_ge_None_2.
  - apply handleCardClick_unbound.
Qed.

(** C1, as the code has it.  When every request of the deal fails, the
    first deal ends with no error message on the page, no entity in any of
    the twelve slots, the spinner hidden, the grid shown and the click
    handler installed. *)
Theorem empty_batch_presents_board (env : Env) (spinner grid : bool)
    (Hfail : forall k, k < 6 -> fetchRandomPokemon env k = None) :
  exists w',
    step (DealArrives 0 env) (initApp (page_loaded spinner grid)) = Some w'
    ∧ errorMessages w' = 0
    ∧ listening w' = true ∧ gridHidden w' = false ∧ spinnerHidden w' = true
    ∧ forall i, i < CARD_COUNT ->
        slot_pokemon w' i = None ∧ slot_visibility w' i = Some hidden.
Proof.
  assert (fetchMultipleRandomPokemon env 6 = []) as Hempty.
  { rewrite fetchMultipleRandomPokemon_eq. apply omap_nil_iff, Forall_forall.
    intros k Hk%in_seq. apply Hfail. lia. }
  eexists. split; [reflexivity|].
  rewrite fetchAndAssignPokemon_eq, Hempty.
  split_and!; try done.
  intros i Hi. unfold slot_pokemon, slot_visibility. simpl.
  change (cards (assign_all _ _))
    with (createCardElement <$> seq 0 CARD_COUNT).
  rewrite lookup_fresh_cards by done. done.
Qed.

(** ** The invariant *)

Lemma matched_count_alter g i faces x :
  faces !! i = Some x ->
  matched_count (alter g i faces) + Nat.b2n x.2
  = matched_count faces + Nat.b2n (g x).2.
Proof.
  unfold matched_count. revert i.
  induction faces as [|y faces IH]; intros [|i] Hx; simplify_eq/=; [lia|].
  specialize (IH i Hx). lia.
Qed.

Lemma matched_count_le faces : matched_count faces ≤ length faces.
Proof.
  unfold matched_count.
  induction faces as [|[f m] faces IH]; [done|].
  rewrite fmap_cons. simpl. destruct m; simpl; lia.
Qed.

Lemma matched_count_lt faces i x :
  faces !! i = Some x -> x.2 = false -> matched_count faces < length faces.
Proof.
  revert i.
  induction faces as [|y faces IH]; intros [|i] Hx Hfalse; simplify_eq/=.
  - pose proof (matched_count_le faces) as Hle.
    unfold matched_count in *. rewrite fmap_cons. simpl.
    rewrite Hfalse. simpl. lia.
  - specialize (IH i Hx Hfalse).
    unfold matched_count in *. rewrite fmap_cons. simpl.
    destruct y as [? []]; simpl; lia.
Qed.

Lemma matched_count_full faces i x :
  matched_count faces = length faces -> faces !! i = Some x -> x.2 = true.
Proof.
  intros Hfull Hx. destruct (x.2) eqn:Hm; [done|].
  pose proof (matched_count_lt faces i x Hx Hm). lia.
Qed.

Lemma board_update_flipped b card w :
  board (update_card (set_flipped b) card w)
  = alter (fun x => (b, x.2)) card (board w).
Proof.
  unfold board. simpl. apply list_fmap_alter. by apply Forall_true.
Qed.

Lemma board_update_matched b card w :
  board (update_card (set_matched b) card w)
  = alter (fun x => (x.1, b)) card (board w).
Proof.
  unfold board. simpl. apply list_fmap_alter. by apply Forall_true.
Qed.

Lemma board_lookup w i c : cards w !! i = Some c -> board w !! i = Some (face c).
Proof. intros Hc. unfold board. by rewrite list_lookup_fmap, Hc. Qed.

Lemma board_assign_all shuffledPairs w :
  board (assign_all shuffledPairs w) = board w.
Proof.
  unfold board. apply list_eq. intros i.
  rewrite !list_lookup_fmap, assign_all_lookup.
  destruct (cards w !! i) as [c|]; simpl; [|done].
  destruct (shuffledPairs !! i); [|done]. by case_decide.
Qed.

Lemma pending_snoc t t' w v :
  timers v = timers w ++ [t'] ->
  pending t v = pending t w + (if decide (t' = t) then 1 else 0).
Proof.
  intros Hv. unfold pending. rewrite Hv, list.filter_app, length_app.
  f_equal. rewrite filter_cons, filter_nil. by case_decide.
Qed.

Lemma pending_delete t k t' w v :
  timers w !! k = Some t' -> timers v = delete k (timers w) ->
  pending t w = pending t v + (if decide (t' = t) then 1 else 0).
Proof.
  intros Hk Hv. unfold pending. rewrite Hv.
  rewrite (filter_Permutation _ _ _ (delete_Permutation _ _ _ Hk)).
  rewrite filter_cons. case_decide; simpl; lia.
Qed.

Lemma Inv_init spinner grid : Inv (initApp (page_loaded spinner grid)).
Proof. constructor; try done. Qed.

Lemma Inv_not_complete w i :
  Inv w -> board w !! i = Some (false, false) ->
  matchedPairs w < TOTAL_PAIRS ∧ completions w = 0.
Proof.
  intros HI Hi.
  pose proof (matched_count_lt _ _ _ Hi eq_refl) as Hlt.
  rewrite (inv_cards w HI), (inv_count w HI) in Hlt.
  assert (matchedPairs w < TOTAL_PAIRS) as Hmp
    by (unfold CARD_COUNT, TOTAL_PAIRS in *; lia).
  split; [done|]. rewrite (inv_complete w HI).
  rewrite decide_False; [done|lia].
Qed.

Lemma handleCardClick_Inv target w : Inv w -> Inv (handleCardClick target w).
Proof.
  intros HI. destruct target as [card|]; [|done].
  destruct (cards w !! card) as [c|] eqn:Hc;
    [|by rewrite handleCardClick_no_card].
  destruct (decide (visibility c = hidden)) as [Hvis|Hvis];
    [|by rewrite (handleCardClick_not_hidden card c)].
  destruct (isProcessingPair w) eqn:Hlock;
    [by rewrite handleCardClick_locked|].
  rewrite (handleCardClick_hidden w card c) by done. cbv zeta.
  pose proof (board_lookup w card c Hc) as Hcard.
  apply visibility_hidden in Hvis as [Hcf Hcm].
  unfold face in Hcard. rewrite Hcf, Hcm in Hcard.
  destruct (Inv_not_complete w card HI Hcard) as [Hmp Hcompl].
  pose proof (inv_lock w HI) as Hl. rewrite Hlock in Hl. destruct Hl as [Hsecond Hpend].
  set (w1 := update_card (set_flipped true) card w).
  assert (board w1 = alter (fun x => (true, x.2)) card (board w)) as Hb1
    by apply board_update_flipped.
  assert (matched_count (board w1) = matched_count (board w)) as Hcount1.
  { rewrite Hb1.
    pose proof (matched_count_alter (fun x => (true, x.2)) card _ _ Hcard).
    simpl in *. lia. }
  assert (board w1 !! card = Some (true, false)) as Hcard1.
  { by rewrite Hb1, list_lookup_alter_eq, Hcard. }
  destruct (firstSelectedCard w) as [first|] eqn:Hfirst.
  - pose proof (inv_first w HI first Hfirst) as Hf.
    assert (first ≠ card) as Hne by (intros ->; congruence).
    rewrite decide_True by done.
    assert (board w1 !! first = Some (true, false)) as Hf1.
    { by rewrite Hb1, list_lookup_alter_ne. }
    set (w2 := set_secondSelectedCard (Some card) w1).
    assert (Inv (resetSelection w2)) as Hreset.
    { constructor.
      - change (length (board w1) = CARD_COUNT).
        rewrite Hb1, length_alter. apply HI.
      - change (matched_count (board w1) = 2 * matchedPairs w).
        rewrite Hcount1. apply HI.
      - intros i [=].
      - change (if isProcessingPair w
                then is_Some (@None nat) ∧ is_Some (@None nat)
                     ∧ pending FlipBack w = 1
                else @None nat = None ∧ pending FlipBack w = 0).
        by rewrite Hlock.
      - exact (inv_complete w HI).
      - exact (inv_error w HI). }
    destruct (checkForMatch_cases w2) as [->|[->| ->]]; [done|..].
    + destruct (handleMatch_fields w2 first card)
        as (Hcards & Hcnt & Hn1 & Hn2 & Hlk & Htm & Hcm' & Herr); [done..|].
      assert (board (handleMatch w2)
              = alter (fun x => (x.1, true)) card
                  (alter (fun x => (x.1, true)) first (board w1))) as Hb.
      { unfold board. rewrite Hcards.
        rewrite !(list_fmap_alter face (set_matched true) (fun x => (x.1, true)));
          [done|by apply Forall_true..]. }
      constructor.
      * rewrite Hb, !length_alter, Hb1, length_alter. apply HI.
      * rewrite Hb, Hcnt.
        pose proof (matched_count_alter (fun x => (x.1, true)) first _ _ Hf1) as H1.
        assert (alter (fun x => (x.1, true)) first (board w1) !! card
                = Some (true, false)) as Hc2 by (by rewrite list_lookup_alter_ne).
        pose proof (matched_count_alter (fun x => (x.1, true)) card _ _ Hc2) as H2.
        pose proof (inv_count w HI). simpl in *. lia.
      * rewrite Hn1. intros ? [=].
      * rewrite Hlk. simpl. rewrite Hlock, Hn2. split; [done|].
        unfold pending. rewrite Htm. simpl. rewrite list.filter_app, length_app.
        fold (pending FlipBack w). rewrite Hpend.
        by destruct (decide (matchedPairs w + 1 = TOTAL_PAIRS)).
      * unfold completions, pending. rewrite Htm, Hcm', Hcnt. simpl.
        rewrite list.filter_app, length_app.
        unfold completions, pending in Hcompl.
        repeat case_decide; simpl; lia.
      * rewrite Herr. apply HI.
    + constructor.
      * change (length (board w1) = CARD_COUNT).
        rewrite Hb1, length_alter. apply HI.
      * change (matched_count (board w1) = 2 * matchedPairs w).
        rewrite Hcount1. apply HI.
      * change (forall i, firstSelectedCard w = Some i ->
                          board w1 !! i = Some (true, false)).
        rewrite Hfirst. by intros ? [= <-].
      * change (is_Some (firstSelectedCard w) ∧ is_Some (Some card)
                ∧ pending FlipBack (handleNonMatch w2) = 1).
        rewrite Hfirst. split_and!; [done..|].
        rewrite (pending_snoc FlipBack FlipBack w); [|done].
        rewrite Hpend. by rewrite decide_True.
      * change (pending ShowGameComplete (handleNonMatch w2) + completionMessages w
                = if decide (matchedPairs w = TOTAL_PAIRS) then 1 else 0).
        rewrite (pending_snoc ShowGameComplete FlipBack w); [|done].
        rewrite decide_False by done.
        rewrite <- (inv_complete w HI). unfold completions. lia.
      * exact (inv_error w HI).
  - constructor.
    + change (length (board w1) = CARD_COUNT).
      rewrite Hb1, length_alter. apply HI.
    + change (matched_count (board w1) = 2 * matchedPairs w).
      rewrite Hcount1. apply HI.
    + change (forall i, Some card = Some i -> board w1 !! i = Some (true, false)).
      by intros ? [= <-].
    + change (if isProcessingPair w
              then is_Some (Some card) ∧ is_Some (secondSelectedCard w)
                   ∧ pending FlipBack w = 1
              else secondSelectedCard w = None ∧ pending FlipBack w = 0).
      by rewrite Hlock.
    + exact (inv_complete w HI).
    + exact (inv_error w HI).
Qed.

Lemma matched_count_alter_same g i faces :
  (forall x, (g x).2 = x.2) ->
  matched_count (alter g i faces) = matched_count faces.
Proof.
  intros Hg. unfold matched_count. revert i.
  induction faces as [|y faces IH]; intros [|i]; simpl;
    [done|done|by rewrite Hg|].
  f_equal. apply IH.
Qed.

Lemma matched_count_cleared {A} (l : list A) :
  matched_count ((fun _ => (false, false)) <$> l) = 0.
Proof. unfold matched_count. by induction l. Qed.

(** The invariant reads the classes of the cards, the session variables,
    the timers and the two message counts, and nothing else. *)
Lemma Inv_same w w' :
  board w' = board w ->
  firstSelectedCard w' = firstSelectedCard w ->
  secondSelectedCard w' = secondSelectedCard w ->
  isProcessingPair w' = isProcessingPair w ->
  matchedPairs w' = matchedPairs w ->
  timers w' = timers w ->
  completionMessages w' = completionMessages w ->
  errorMessages w' = errorMessages w ->
  Inv w -> Inv w'.
Proof.
  intros Hb Hf Hs Hl Hm Ht Hc He HI.
  constructor; unfold completions, pending;
    rewrite ?Hb, ?Hf, ?Hs, ?Hl, ?Hm, ?Ht, ?Hc, ?He; apply HI.
Qed.

Lemma run_timer_Inv w k t :
  Inv w -> timers w !! k = Some t ->
  Inv (run_timer t (set_timers (delete k (timers w)) w)).
Proof.
  intros HI Hk. set (w0 := set_timers (delete k (timers w)) w).
  pose proof (pending_delete FlipBack k t w w0 Hk eq_refl) as HpF.
  pose proof (pending_delete ShowGameComplete k t w w0 Hk eq_refl) as HpC.
  pose proof (inv_lock w HI) as Hlock.
  pose proof (inv_complete w HI) as Hcompl. unfold completions in Hcompl.
  destruct t; simpl in HpF, HpC |- *.
  - destruct (isProcessingPair w) eqn:Hl; [|lia].
    destruct Hlock as ([first Hfirst] & [second Hsecond] & Hone).
    unfold flipBack.
    change (firstSelectedCard w0) with (firstSelectedCard w). rewrite Hfirst.
    cbv zeta.
    change (secondSelectedCard (update_card (set_flipped false) first w0))
      with (secondSelectedCard w). rewrite Hsecond.
    set (w1 := update_card (set_flipped false) first w0).
    set (w2 := update_card (set_flipped false) second w1).
    assert (board w2 = alter (fun x => (false, x.2)) second
                         (alter (fun x => (false, x.2)) first (board w))) as Hb.
    { subst w2 w1. by rewrite !board_update_flipped. }
    constructor.
    + change (length (board w2) = CARD_COUNT).
      rewrite Hb, !length_alter. apply HI.
    + change (matched_count (board w2) = 2 * matchedPairs w).
      rewrite Hb, !matched_count_alter_same by done. apply HI.
    + intros i [=].
    + change (@None nat = None ∧ pending FlipBack w0 = 0). split; [done|lia].
    + change (pending ShowGameComplete w0 + completionMessages w
              = if decide (matchedPairs w = TOTAL_PAIRS) then 1 else 0). lia.
    + exact (inv_error w HI).
  - constructor.
    + exact (inv_cards w HI).
    + exact (inv_count w HI).
    + exact (inv_first w HI).
    + change (if isProcessingPair w
              then is_Some (firstSelectedCard w) ∧ is_Some (secondSelectedCard w)
                   ∧ pending FlipBack w0 = 1
              else secondSelectedCard w = None ∧ pending FlipBack w0 = 0).
      replace (pending FlipBack w0) with (pending FlipBack w) by lia. done.
    + change (pending ShowGameComplete w0 + S (completionMessages w)
              = if decide (matchedPairs w = TOTAL_PAIRS) then 1 else 0). lia.
    + exact (inv_error w HI).
Qed.

Lemma fetchAndAssignPokemon_Inv env w : Inv w -> Inv (fetchAndAssignPokemon env w).
Proof.
  intros HI. rewrite fetchAndAssignPokemon_eq.
  rewrite assign_all_set_cards.
  apply (Inv_same w); try done.
  change (board (set_cards ?v w)) with (face <$> v).
  apply board_assign_all.
Qed.

(** When the Play Again button is on the page the session is complete:
    the counter is TOTAL_PAIRS, every card is matched, nothing is locked
    and no other completion is pending. *)
Lemma Inv_complete_shown w n :
  Inv w -> completionMessages w = S n ->
  matchedPairs w = TOTAL_PAIRS ∧ n = 0 ∧ pending ShowGameComplete w = 0
  ∧ isProcessingPair w = false ∧ pending FlipBack w = 0.
Proof.
  intros HI Hn.
  pose proof (inv_complete w HI) as Hc. unfold completions in Hc.
  rewrite Hn in Hc.
  destruct (decide (matchedPairs w = TOTAL_PAIRS)) as [Hmp|Hmp]; [|lia].
  split_and!; [done|lia|lia|..].
  - destruct (isProcessingPair w) eqn:Hl; [|done].
    pose proof (inv_lock w HI) as Hlock. rewrite Hl in Hlock.
    destruct Hlock as ([first Hfirst] & _).
    pose proof (inv_first w HI first Hfirst) as Hf.
    assert (matched_count (board w) = length (board w)) as Hfull.
    { rewrite (inv_count w HI), (inv_cards w HI), Hmp. done. }
    by pose proof (matched_count_full _ _ _ Hfull Hf).
  - pose proof (inv_lock w HI) as Hlock.
    destruct (isProcessingPair w) eqn:Hl; [|by destruct Hlock].
    destruct Hlock as ([first Hfirst] & _).
    pose proof (inv_first w HI first Hfirst) as Hf.
    assert (matched_count (board w) = length (board w)) as Hfull.
    { rewrite (inv_count w HI), (inv_cards w HI), Hmp. done. }
    by pose proof (matched_count_full _ _ _ Hfull Hf).
Qed.

Lemma resetGame_Inv w n :
  Inv w -> completionMessages w = S n ->
  Inv (resetGame (set_completionMessages n w)).
Proof.
  intros HI Hn.
  destruct (Inv_complete_shown w n HI Hn) as (Hmp & -> & HpC & Hl & HpF).
  assert (board (resetGame (set_completionMessages 0 w))
          = (fun _ => (false, false)) <$> cards w) as Hb.
  { unfold board. simpl. rewrite <- !list_fmap_compose. done. }
  constructor.
  - rewrite Hb, length_fmap. rewrite <- (inv_cards w HI).
    unfold board. by rewrite length_fmap.
  - rewrite Hb, matched_count_cleared. done.
  - intros i [=].
  - change (@None nat = None ∧ pending FlipBack w = 0). done.
  - change (pending ShowGameComplete w + 0
            = if decide (0 = TOTAL_PAIRS) then 1 else 0).
    rewrite HpC. done.
  - exact (inv_error w HI).
Qed.

Lemma step_Click target w w' :
  step (Click target) w = Some w' -> w' = handleCardClick target w ∨ w' = w.
Proof.
  simpl. intros Hstep.
  destruct target as [card|]; [case_decide; [|done]|];
    destruct (listening w); simplify_eq; auto.
Qed.

Lemma step_Inv e w w' : Inv w -> step e w = Some w' -> Inv w'.
Proof.
  intros HI Hstep. destruct e as [target|k|k env|].
  - apply step_Click in Hstep as [-> | ->]; [|done].
    by apply handleCardClick_Inv.
  - simpl in Hstep. destruct (timers w !! k) as [t|] eqn:Hk; simplify_eq/=.
    by apply run_timer_Inv.
  - simpl in Hstep.
    destruct (suspended w !! k) as [caller|] eqn:Hk; simplify_eq/=.
    set (w0 := set_suspended (delete k (suspended w)) w).
    assert (Inv (fetchAndAssignPokemon env w0)) as HI1.
    { apply fetchAndAssignPokemon_Inv. by apply (Inv_same w). }
    destruct caller; [|done].
    by apply (Inv_same (fetchAndAssignPokemon env w0)).
  - simpl in Hstep. destruct (completionMessages w) as [|n] eqn:Hn; simplify_eq.
    by apply resetGame_Inv.
Qed.

Lemma reachable_Inv w : reachable w -> Inv w.
Proof.
  induction 1 as [spinner grid|w e w' _ IH Hstep].
  - apply Inv_init.
  - by apply (step_Inv e w).
Qed.

(** ** The counter *)

Lemma handleMatch_matchedPairs w :
  matchedPairs (handleMatch w) = matchedPairs w
  ∨ matchedPairs (handleMatch w) = matchedPairs w + 1.
Proof.
  destruct (firstSelectedCard w) as [first|] eqn:Hf;
    [|left; unfold handleMatch; by rewrite Hf].
  destruct (secondSelectedCard w) as [second|] eqn:Hs;
    [|left; unfold handleMatch; by rewrite Hf, Hs].
  right. by destruct (handleMatch_fields w first second) as (_ & -> & _).
Qed.

Lemma handleCardClick_matchedPairs target w :
  matchedPairs (handleCardClick target w) = matchedPairs w
  ∨ matchedPairs (handleCardClick target w) = matchedPairs w + 1.
Proof.
  destruct target as [card|]; [|by left].
  destruct (cards w !! card) as [c|] eqn:Hc;
    [|left; by rewrite handleCardClick_no_card].
  destruct (decide (visibility c = hidden)) as [Hvis|Hvis];
    [|left; by rewrite (handleCardClick_not_hidden card c)].
  destruct (isProcessingPair w) eqn:Hlock;
    [left; by rewrite handleCardClick_locked|].
  rewrite (handleCardClick_hidden w card c) by done. cbv zeta.
  destruct (firstSelectedCard w) as [first|]; [|by left].
  case_decide; [|by left].
  set (w2 := set_secondSelectedCard _ _).
  change (matchedPairs w) with (matchedPairs w2).
  destruct (checkForMatch_cases w2) as [->|[->| ->]];
    [by left|apply handleMatch_matchedPairs|by left].
Qed.

Lemma flipBack_matchedPairs w : matchedPairs (flipBack w) = matchedPairs w.
Proof.
  unfold flipBack. destruct (firstSelectedCard w); [|done]. simpl.
  by destruct (secondSelectedCard w).
Qed.

Lemma step_matchedPairs e w w' :
  step e w = Some w' -> e ≠ PlayAgain ->
  matchedPairs w' = matchedPairs w ∨ matchedPairs w' = matchedPairs w + 1.
Proof.
  intros Hstep Hne. destruct e as [target|k|k env|]; [| | |done].
  - apply step_Click in Hstep as [-> | ->]; [|by left].
    apply handleCardClick_matchedPairs.
  - simpl in Hstep. destruct (timers w !! k) as [t|]; simplify_eq/=. left.
    destruct t; [|done]. by rewrite flipBack_matchedPairs.
  - simpl in Hstep. destruct (suspended w !! k) as [caller|]; simplify_eq/=.
    left. rewrite fetchAndAssignPokemon_eq, assign_all_set_cards.
    by destruct caller.
Qed.

(** With the counter at TOTAL_PAIRS every card is matched and the click
    handler changes nothing. *)
Lemma handleCardClick_complete target w :
  Inv w -> matchedPairs w = TOTAL_PAIRS -> handleCardClick target w = w.
Proof.
  intros HI Hmp. destruct target as [card|]; [|done].
  destruct (cards w !! card) as [c|] eqn:Hc;
    [|by rewrite handleCardClick_no_card].
  apply (handleCardClick_not_hidden card c); [done|].
  assert (matched_count (board w) = length (board w)) as Hfull.
  { rewrite (inv_count w HI), (inv_cards w HI), Hmp. done. }
  pose proof (matched_count_full _ _ _ Hfull (board_lookup w card c Hc)) as Hm.
  simpl in Hm. unfold visibility. by rewrite Hm.
Qed.

(** C4.  In every reachable world the matched-pair counter is at most
    TOTAL_PAIRS; no event but Play Again changes it other than by adding
    one; the complete state is signalled (its timer pending or its message
    shown) exactly once while the counter is TOTAL_PAIRS and not at all
    while it is below; with the counter at TOTAL_PAIRS clicks on the grid
    change nothing; and Play Again, which only a complete session offers,
    puts the counter back to zero. *)
Theorem matchedPairs_counter (w : World) (Hreach : reachable w) :
  matchedPairs w ≤ TOTAL_PAIRS
  ∧ completions w = (if decide (matchedPairs w = TOTAL_PAIRS) then 1 else 0)
  ∧ (forall e w', step e w = Some w' -> e ≠ PlayAgain ->
       matchedPairs w' = matchedPairs w ∨ matchedPairs w' = matchedPairs w + 1)
  ∧ (matchedPairs w = TOTAL_PAIRS ->
       forall target w', step (Click target) w = Some w' -> w' = w)
  ∧ (forall w', step PlayAgain w = Some w' ->
       matchedPairs w = TOTAL_PAIRS ∧ matchedPairs w' = 0 ∧ completions w' = 0).
Proof.
  pose proof (reachable_Inv w Hreach) as HI.
  split_and!.
  - pose proof (matched_count_le (board w)) as Hle.
    rewrite (inv_count w HI), (inv_cards w HI) in Hle.
    unfold CARD_COUNT, TOTAL_PAIRS in *. lia.
  - exact (inv_complete w HI).
  - intros e w'. apply step_matchedPairs.
  - intros Hmp target w' Hstep.
    apply step_Click in Hstep as [-> | ->]; [|done].
    by apply handleCardClick_complete.
  - intros w' Hstep. simpl in Hstep.
    destruct (completionMessages w) as [|n] eqn:Hn; simplify_eq.
    destruct (Inv_complete_shown w n HI Hn) as (Hmp & -> & HpC & _).
    split_and!; [done|done|].
    change (pending ShowGameComplete w + 0 = 0). lia.
Qed.

(** The error message, and with it the Try Again button that would run
    [initApp] a second time, never comes up: no failure of the network
    reaches the [catch] of [fetchAndAssignPokemon]. *)
Lemma reachable_no_error w : reachable w -> errorMessages w = 0.
Proof. intros Hreach. exact (inv_error w (reachable_Inv w Hreach)). Qed.

Lemma run_reachable es w w' : reachable w -> run es w = Some w' -> reachable w'.
Proof.
  revert w. induction es as [|e es IH]; intros w Hreach Hrun; simplify_eq/=.
  - done.
  - destruct (step e w) as [w1|] eqn:Hstep; simplify_eq/=.
    apply (IH w1); [|done]. by apply (reachable_step w e).
Qed.

(** * Further properties *)

(** ** The remote data client *)

Lemma random_below_lt r n : 0 < n -> random_below r n < n.
Proof. intros Hn. unfold random_below. apply Nat.mod_upper_bound. lia. Qed.

(** A fetch yields an entity exactly when the request for the drawn
    identifier, which lies between 1 and TOTAL_POKEMON, is answered with
    an ok status and a body that parses to a record which
    [processPokemonData] processes without throwing; the entity is then
    what [processPokemonData] returns.  It yields [null] exactly when the
    request is rejected, or the status is not ok whatever the body, or the
    body is not JSON, or the processing of the payload throws. *)
Theorem fetchRandomPokemon_succeeds (env : Env) (k : nat) :
  let randomId := random_below (random env k) TOTAL_POKEMON + 1 in
  1 ≤ randomId ≤ TOTAL_POKEMON
  ∧ (forall pokemon,
       fetchRandomPokemon env k = Some pokemon
       <-> exists r data,
             network env k randomId = Responded r
             ∧ ok r = true
             ∧ body r = Json (Complete data)
             ∧ processPokemonData data = Ok pokemon)
  ∧ (fetchRandomPokemon env k = None
     <-> network env k randomId = Rejected
         ∨ exists r,
             network env k randomId = Responded r
             ∧ (ok r = false
                ∨ body r = NotJson
                ∨ body r = Json Incomplete
                ∨ exists data e,
                    body r = Json (Complete data)
                    ∧ processPokemonData data = Throw e)).
Proof.
  pose proof (random_below_lt (random env k) TOTAL_POKEMON) as Hlt.
  assert (0 < TOTAL_POKEMON) as Hpos by (unfold TOTAL_POKEMON; lia).
  specialize (Hlt Hpos).
  unfold fetchRandomPokemon, fetchRandomPokemon_try. cbv zeta.
  set (randomId := random_below (random env k) TOTAL_POKEMON + 1) in *.
  split; [lia|].
  destruct (network env k randomId) as [|[okr st b]]; simpl.
  { split.
    - intros pokemon. split; [done|]. by intros (r & data & ? & _).
    - split; [by left|done]. }
  destruct okr; simpl.
  2:{ split.
      - intros pokemon. split; [done|].
        intros (r & data & Hr & Hok & _). by simplify_eq/=.
      - split; [|done]. intros _. right. eexists. split; [done|]. by left. }
  destruct b as [|[|data]]; simpl.
  - split.
    + intros pokemon. split; [done|].
      intros (r & data & Hr & _ & Hbody & _). by simplify_eq/=.
    + split; [|done]. intros _. right. eexists. split; [done|]. right. by left.
  - split.
    + intros pokemon. split; [done|].
      intros (r & data & Hr & _ & Hbody & _). by simplify_eq/=.
    + split; [|done]. intros _. right. eexists. split; [done|].
      right. right. by left.
  - destruct (processPokemonData data) as [p|e] eqn:Hp; simpl.
    + split.
      * intros pokemon. split.
        -- intros [= <-]. eexists _, data. by split_and!.
        -- intros (r & data' & Hr & _ & Hbody & Hp'). simplify_eq/=. congruence.
      * split; [done|].
        intros [|(r & Hr & [Hok|[Hbody|[Hbody|(data' & e & Hbody & Hp')]]])];
          simplify_eq/=. congruence.
    + split.
      * intros pokemon. split; [done|].
        intros (r & data' & Hr & _ & Hbody & Hp'). simplify_eq/=. congruence.
      * split; [|done]. intros _. right. eexists. split; [done|].
        right. right. right. by exists data, e.
Qed.

(** Identifiers outside 1..TOTAL_POKEMON are never requested: a batch is
    the same in two environments with the same draws and the same answers
    for the identifiers 1..TOTAL_POKEMON. *)
Theorem fetchMultipleRandomPokemon_in_catalog (env env' : Env) (count : nat)
    (Hdraws : forall k, random env k = random env' k)
    (Hanswers : forall k randomId, 1 ≤ randomId ≤ TOTAL_POKEMON ->
                  network env k randomId = network env' k randomId) :
  fetchMultipleRandomPokemon env count = fetchMultipleRandomPokemon env' count.
Proof.
  rewrite !fetchMultipleRandomPokemon_eq. apply list_omap_ext.
  apply Forall2_same_length_lookup. split; [done|].
  intros i k k' Hk Hk'. simplify_eq.
  unfold fetchRandomPokemon, fetchRandomPokemon_try. cbv zeta.
  rewrite <- Hdraws.
  pose proof (random_below_lt (random env k) TOTAL_POKEMON) as Hlt.
  rewrite <- Hanswers; [done|]. unfold TOTAL_POKEMON in *. lia.
Qed.

Lemma find_other statName s stats :
  other_stat statName s -> find (s :: stats) statName = find stats statName.
Proof. intros (name' & Hs & Hne). simpl. rewrite Hs. by rewrite decide_False. Qed.

Lemma find_absent stats statName :
  Forall (other_stat statName) stats -> find stats statName = Ok None.
Proof.
  induction 1 as [|s stats Hs _ IH]; [done|]. by rewrite find_other.
Qed.

Lemma find_app pre rest statName :
  Forall (other_stat statName) pre ->
  find (pre ++ rest) statName = find rest statName.
Proof.
  induction 1 as [|s pre Hs _ IH]; [done|].
  by rewrite <- app_comm_cons, find_other.
Qed.

Lemma findStat_absent stats statName :
  Forall (other_stat statName) stats -> findStat stats statName = Ok (Some 0).
Proof. intros Hall. unfold findStat. by rewrite find_absent. Qed.

Lemma find_total stats statName :
  Forall (fun s => is_Some (stat s)) stats ->
  exists found, find stats statName = Ok found.
Proof.
  induction 1 as [|s stats [name' Hs] _ IH]; simpl; [by eexists|].
  rewrite Hs. case_decide; [by eexists|done].
Qed.

Lemma findStat_total stats statName :
  Forall (fun s => is_Some (stat s)) stats ->
  exists value, findStat stats statName = Ok value.
Proof.
  intros Hall. unfold findStat.
  destruct (find_total stats statName Hall) as [found ->]. by eexists.
Qed.

(** [findStat] gives the base value of the first entry with the name
    asked for, whether or not that entry has one, and 0 when no entry has
    that name; it throws when an entry without [stat] comes before any
    entry with that name. *)
Theorem findStat_first_or_zero (stats : list RawStat) (statName : JSString) :
  (Forall (other_stat statName) stats -> findStat stats statName = Ok (Some 0))
  ∧ (forall pre s post,
       stats = pre ++ s :: post -> Forall (other_stat statName) pre ->
       (stat s = Some (Some statName) ->
          findStat stats statName = Ok (base_stat s))
       ∧ (stat s = None -> findStat stats statName = Throw TypeError)).
Proof.
  split; [apply findStat_absent|].
  intros pre s post -> Hpre. unfold findStat. rewrite find_app by done.
  simpl. split; intros Hs; rewrite Hs; [|done]. by rewrite decide_True.
Qed.

Lemma processPokemonData_Ok data pokemon :
  processPokemonData data = Ok pokemon ->
  exists hpStat attackStat defenseStat speedStat,
    findStat (raw_stats data) (js "hp") = Ok hpStat
    ∧ findStat (raw_stats data) (js "attack") = Ok attackStat
    ∧ findStat (raw_stats data) (js "defense") = Ok defenseStat
    ∧ findStat (raw_stats data) (js "speed") = Ok speedStat
    ∧ pokemon
      = {| id := raw_id data;
           name := capitalizeFirstLetter (raw_name data);
           sprite := or_else (raw_artwork data) (raw_front_default data);
           types := raw_types data;
           height := (fun h => inject_Z h / 10)%Q <$> raw_height data;
           weight := (fun w => inject_Z w / 10)%Q <$> raw_weight data;
           abilities := capitalizeFirstLetter <$> raw_abilities data;
           stats := {| hp := hpStat; attack := attackStat;
                       defense := defenseStat; speed := speedStat |};
           speciesUrl := raw_species_url data |}.
Proof.
  unfold processPokemonData.
  destruct (findStat (raw_stats data) (js "hp")) as [h|]; [|done].
  destruct (findStat (raw_stats data) (js "attack")) as [a|]; [|done].
  destruct (findStat (raw_stats data) (js "defense")) as [d|]; [|done].
  destruct (findStat (raw_stats data) (js "speed")) as [sp|]; [|done].
  simpl. intros [= <-]. by exists h, a, d, sp.
Qed.

(** A record whose entries of [stats] all have a [stat] is processed
    without an exception, also when it has no [id], [height] or [weight].
    Whenever a record is processed, the entity keeps its identifier, a
    number or none; its height and weight are a tenth of the record's, or
    not a number when the record has none; a stat the record does not
    list is 0; the image is the official artwork unless that is null or
    the empty string, in which case it is the default sprite, whatever
    that is. *)
Theorem processPokemonData_defaults (data : RawPokemon) :
  (Forall (fun s => is_Some (stat s)) (raw_stats data) ->
     exists pokemon, processPokemonData data = Ok pokemon)
  ∧ forall pokemon, processPokemonData data = Ok pokemon ->
      id pokemon = raw_id data
      ∧ height pokemon = (fun h => inject_Z h / 10)%Q <$> raw_height data
      ∧ weight pokemon = (fun w => inject_Z w / 10)%Q <$> raw_weight data
      ∧ (Forall (other_stat (js "hp")) (raw_stats data) ->
           hp (stats pokemon) = Some 0)
      ∧ (Forall (other_stat (js "attack")) (raw_stats data) ->
           attack (stats pokemon) = Some 0)
      ∧ (Forall (other_stat (js "defense")) (raw_stats data) ->
           defense (stats pokemon) = Some 0)
      ∧ (Forall (other_stat (js "speed")) (raw_stats data) ->
           speed (stats pokemon) = Some 0)
      ∧ (forall c s, raw_artwork data = Some (c :: s) ->
           sprite pokemon = Some (c :: s))
      ∧ (raw_artwork data = None ∨ raw_artwork data = Some [] ->
           sprite pokemon = raw_front_default data).
Proof.
  split.
  - intros Hall. unfold processPokemonData.
    destruct (findStat_total _ (js "hp") Hall) as [h ->].
    destruct (findStat_total _ (js "attack") Hall) as [a ->].
    destruct (findStat_total _ (js "defense") Hall) as [d ->].
    destruct (findStat_total _ (js "speed") Hall) as [sp ->].
    by eexists.
  - intros pokemon Hp.
    destruct (processPokemonData_Ok _ _ Hp)
      as (h & a & d & sp & Hh & Ha & Hd & Hsp & ->).
    simpl. split_and!; try done.
    + intros H. rewrite findStat_absent in Hh by done. congruence.
    + intros H. rewrite findStat_absent in Ha by done. congruence.
    + intros H. rewrite findStat_absent in Hd by done. congruence.
    + intros H. rewrite findStat_absent in Hsp by done. congruence.
    + intros c s H. by rewrite H.
    + intros [H|H]; by rewrite H.
Qed.

(** ** The batch *)

Lemma length_omap_full {A B} (f : A -> option B) (l : list A) :
  length (omap f l) = length l <-> Forall (fun x => is_Some (f x)) l.
Proof.
  induction l as [|x l IH]; csimpl.
  - split; [constructor|done].
  - pose proof (length_omap_le f l) as Hle.
    destruct (f x) eqn:Hx; simpl.
    + split.
      * intros Hlen. constructor; [by rewrite Hx|]. apply IH. lia.
      * intros Hall. inversion Hall; subst. f_equal. by apply IH.
    + split; [lia|]. intros Hall. inversion Hall as [|? ? [? Hsome]]; subst.
      congruence.
Qed.

(** The batch has as many entities as were asked for exactly when no
    request failed. *)
Theorem fetchMultipleRandomPokemon_full (env : Env) (count : nat) :
  length (fetchMultipleRandomPokemon env count) = count
  <-> forall k, k < count -> is_Some (fetchRandomPokemon env k).
Proof.
  rewrite fetchMultipleRandomPokemon_eq.
  pose proof (length_omap_full (fetchRandomPokemon env) (seq 0 count)) as Hfull.
  rewrite length_seq in Hfull. rewrite Hfull, Forall_forall. split.
  - intros H k Hk. apply H, in_seq. lia.
  - intros H k Hk%in_seq. apply H. lia.
Qed.

(** The batch is not deduplicated: an entity that two requests return is
    in it twice. *)
Theorem fetchMultipleRandomPokemon_repeats (env : Env) (count j k : nat)
    (pokemon : Pokemon)
    (Horder : j < k < count)
    (Hj : fetchRandomPokemon env j = Some pokemon)
    (Hk : fetchRandomPokemon env k = Some pokemon) :
  exists before between behind,
    fetchMultipleRandomPokemon env count
    = before ++ pokemon :: between ++ pokemon :: behind.
Proof.
  rewrite fetchMultipleRandomPokemon_eq.
  replace count with (j + (1 + ((k - S j) + (1 + (count - S k))))) by lia.
  rewrite !seq_app, !omap_app. simpl seq. csimpl.
  replace (j + 1 + (k - S j)) with k by lia.
  rewrite Hj, Hk. eauto.
Qed.

(** ** The shuffle *)

Lemma shuffle_loop_draws {A} rnd rnd' k i (a : list A) :
  (forall m, k ≤ m < k + i -> rnd m = rnd' m) ->
  shuffle_loop rnd k i a = shuffle_loop rnd' k i a.
Proof.
  revert k a. induction i as [|i IH]; intros k a Hagree; [done|].
  simpl. rewrite (Hagree k) by lia. apply IH.
  intros m Hm. apply Hagree. lia.
Qed.


Lemma swap_app {A} (pre suf : list A) i j :
  i < length pre -> j < length pre ->
  swap (pre ++ suf) i j = swap pre i j ++ suf.
Proof.
  intros Hi Hj. unfold swap. rewrite !lookup_app_l by done.
  destruct (lookup_lt_is_Some_2 pre i Hi) as [ai ->].
  destruct (lookup_lt_is_Some_2 pre j Hj) as [aj ->].
  rewrite insert_app_l by done.
  by rewrite insert_app_l by (by rewrite length_insert).
Qed.

(** The loop entered at index [i] leaves the elements behind [i] alone. *)
Lemma shuffle_loop_app {A} rnd k i (pre suf : list A) :
  i < length pre ->
  shuffle_loop rnd k i (pre ++ suf) = shuffle_loop rnd k i pre ++ suf.
Proof.
  revert k pre. induction i as [|i IH]; intros k pre Hi; [done|].
  simpl. pose proof (random_below_le (rnd k) (S i)) as Hj.
  rewrite swap_app by lia. apply IH. rewrite length_swap. lia.
Qed.

Lemma shuffle_loop_S {A} rnd k i (a : list A) :
  shuffle_loop rnd k (S i) a
  = shuffle_loop rnd (S k) i (swap a (S i) (random_below (rnd k) (S i + 1))).
Proof. done. Qed.

Lemma snoc_lookup {A} (l : list A) n x :
  length l = S n -> l !! n = Some x -> l = take n l ++ [x].
Proof.
  intros Hlen Hx. rewrite <- (take_drop n l) at 1. f_equal.
  apply (drop_S l x n) in Hx. rewrite Hx. f_equal.
  apply nil_length_inv. rewrite length_drop. lia.
Qed.

Lemma shuffle_loop_reaches {A} i k (a target : list A) :
  length a = S i -> a ≡ₚ target ->
  exists rnd, shuffle_loop rnd k i a = target.
Proof.
  revert k a target. induction i as [|i IH]; intros k a target Hlen Hperm.
  - exists (fun _ => 0). simpl.
    destruct a as [|x [|? ?]]; simplify_eq/=.
    by apply Permutation_singleton_l in Hperm.
  - assert (length target = S (S i)) as Hlent
      by (by rewrite <- (Permutation_length Hperm)).
    destruct (lookup_lt_is_Some_2 target (S i)) as [x Hx]; [lia|].
    pose proof (snoc_lookup target (S i) x Hlent Hx) as Htarget.
    assert (x ∈ a) as Hin.
    { rewrite Hperm. apply list_elem_of_lookup. eauto. }
    apply list_elem_of_lookup in Hin as [j Hj].
    pose proof (lookup_lt_Some _ _ _ Hj) as Hjlt.
    set (a' := swap a (S i) j).
    assert (length a' = S (S i)) as Hlen' by (subst a'; by rewrite length_swap).
    assert (a' !! S i = Some x) as Hlast.
    { subst a'. rewrite swap_exchange by lia. unfold exchange.
      rewrite list_lookup_imap.
      destruct (lookup_lt_is_Some_2 a (S i)) as [y ->]; [lia|].
      simpl. by rewrite decide_True, Hj. }
    pose proof (snoc_lookup a' (S i) x Hlen' Hlast) as Ha'.
    assert (take (S i) a' ≡ₚ take (S i) target) as Hrest.
    { apply (Permutation_app_inv_r [x]). rewrite <- Ha', <- Htarget.
      subst a'. by rewrite swap_Permutation. }
    destruct (IH (S k) (take (S i) a') (take (S i) target)) as [rnd' Hrnd'];
      [rewrite length_take; lia|done|].
    exists (fun m => if decide (m = k) then j else rnd' m).
    rewrite shuffle_loop_S, decide_True by done.
    assert (random_below j (S i + 1) = j) as ->
      by (unfold random_below; apply Nat.mod_small; lia).
    fold a'. rewrite Ha', shuffle_loop_app by (rewrite length_take; lia).
    rewrite Htarget. f_equal. rewrite <- Hrnd'.
    apply shuffle_loop_draws. intros m Hm. rewrite decide_False; [done|lia].
Qed.

(** Every arrangement of the input can come out of the shuffle: for each
    permutation of the array there are draws that produce it. *)
Theorem shuffleArray_reaches {A} (array target : list A)
    (Hperm : array ≡ₚ target) :
  exists rnd, shuffleArray rnd array = target.
Proof.
  destruct array as [|x array].
  - exists (fun _ => 0). by apply Permutation_nil_l in Hperm as <-.
  - unfold shuffleArray. apply shuffle_loop_reaches; [|done]. simpl. lia.
Qed.

(** ** Seeding, again *)

Lemma omap_Some {A} (l : list A) : omap (fun x : option A => x) (Some <$> l) = l.
Proof. induction l as [|x l IH]; [done|]. rewrite fmap_cons. csimpl. by rewrite IH. Qed.

(** A deal writes entities and nothing else: slot i receives the i-th
    shuffled entity when there is a card i, i is below CARD_COUNT and
    there is an i-th entity; every other slot keeps the entity it had, so
    that after a redeal with fewer entities the last slots still hold
    those of the deal before.  No slot changes its visibility, and the
    session variables, the timers and the page are as they were. *)
Theorem fetchAndAssignPokemon_seeds (env : Env) (w : World) :
  let shuffledPairs :=
    shuffledPairs_of (fetchMultipleRandomPokemon env 6)
                     (fun k => random env (6 + k)) in
  let w' := fetchAndAssignPokemon env w in
  w' = set_cards (cards w') w
  ∧ length (cards w') = length (cards w)
  ∧ (forall i, slot_visibility w' i = slot_visibility w i)
  ∧ (forall i, i < length (cards w) -> i < CARD_COUNT ->
       i < length shuffledPairs -> slot_pokemon w' i = shuffledPairs !! i)
  ∧ (forall i, CARD_COUNT ≤ i ∨ length shuffledPairs ≤ i ->
       slot_pokemon w' i = slot_pokemon w i).
Proof.
  intros shuffledPairs w'. subst w'. rewrite fetchAndAssignPokemon_eq.
  fold shuffledPairs. split_and!.
  - apply assign_all_set_cards.
  - pose proof (f_equal length (board_assign_all shuffledPairs w)) as H.
    unfold board in H. by rewrite !length_fmap in H.
  - intros i. unfold slot_visibility. rewrite assign_all_lookup.
    destruct (cards w !! i) as [c|]; [|done]. simpl.
    destruct (shuffledPairs !! i); [|done]. by case_decide.
  - intros i Hi Hcount Hsp. unfold slot_pokemon. rewrite assign_all_lookup.
    destruct (lookup_lt_is_Some_2 (cards w) i Hi) as [c ->].
    destruct (lookup_lt_is_Some_2 shuffledPairs i Hsp) as [p ->].
    simpl. by rewrite decide_True.
  - intros i Hi. unfold slot_pokemon. rewrite assign_all_lookup.
    destruct (cards w !! i) as [c|]; [|done]. simpl.
    destruct (shuffledPairs !! i) as [p|] eqn:Hp; [|done].
    apply lookup_lt_Some in Hp.
    case_decide; [|done]. lia.
Qed.

(** When all six requests succeed on a grid of CARD_COUNT cards, the
    entities on the cards, read in grid order, are the shuffled pairs:
    every slot holds one, and together they are each entity of the batch
    twice. *)
Theorem fetchAndAssignPokemon_full_deal (env : Env) (w : World)
    (Hgrid : length (cards w) = CARD_COUNT)
    (Hfull : length (fetchMultipleRandomPokemon env 6) = TOTAL_PAIRS) :
  let w' := fetchAndAssignPokemon env w in
  omap dataset_pokemon (cards w')
  = shuffledPairs_of (fetchMultipleRandomPokemon env 6)
                     (fun k => random env (6 + k))
  ∧ omap dataset_pokemon (cards w')
    ≡ₚ (fetchMultipleRandomPokemon env 6 ≫= fun pokemon => [pokemon; pokemon])
  ∧ forall i, i < CARD_COUNT -> is_Some (slot_pokemon w' i).
Proof.
  intros w'. subst w'. rewrite fetchAndAssignPokemon_eq.
  set (shuffledPairs := shuffledPairs_of _ _).
  assert (length shuffledPairs = CARD_COUNT) as Hlen.
  { subst shuffledPairs. rewrite length_shuffledPairs_of, Hfull. done. }
  assert (forall i, cards (assign_all shuffledPairs w) !! i ≫= dataset_pokemon
                    = shuffledPairs !! i) as Hslot.
  { intros i. rewrite assign_all_lookup.
    destruct (decide (i < CARD_COUNT)) as [Hi|Hi].
    - destruct (lookup_lt_is_Some_2 (cards w) i) as [c ->]; [lia|].
      destruct (lookup_lt_is_Some_2 shuffledPairs i) as [p ->]; [lia|].
      done.
    - rewrite !lookup_ge_None_2 by lia. done. }
  assert (dataset_pokemon <$> cards (assign_all shuffledPairs w)
          = Some <$> shuffledPairs) as Hdata.
  { apply list_eq. intros i. rewrite !list_lookup_fmap, <- Hslot.
    destruct (cards (assign_all shuffledPairs w) !! i) as [c|] eqn:Hc; [|done].
    simpl. specialize (Hslot i). rewrite Hc in Hslot. simpl in Hslot.
    destruct (dataset_pokemon c); [done|].
    symmetry in Hslot. apply lookup_ge_None in Hslot.
    apply lookup_lt_Some in Hc.
    pose proof (f_equal length (board_assign_all shuffledPairs w)) as H.
    unfold board in H. rewrite !length_fmap in H. lia. }
  assert (omap dataset_pokemon (cards (assign_all shuffledPairs w))
          = shuffledPairs) as Homap.
  { rewrite <- omap_fmap_self, Hdata. apply omap_Some. }
  split_and!.
  - done.
  - rewrite Homap. apply shuffleArray_Permutation.
  - intros i Hi. unfold slot_pokemon. rewrite Hslot.
    apply lookup_lt_is_Some_2. lia.
Qed.

(** ** Clicks, again *)

Lemma fmap_dataset_alter (f : Card -> Card) i (l : list Card) :
  (forall c, dataset_pokemon (f c) = dataset_pokemon c) ->
  dataset_pokemon <$> alter f i l = dataset_pokemon <$> l.
Proof.
  intros Hf.
  rewrite (list_fmap_alter dataset_pokemon f (fun p => p)).
  - by apply list_alter_id.
  - apply Forall_forall. intros c _. apply Hf.
Qed.

Lemma frame_refl w : frame w w.
Proof. by repeat split. Qed.

Lemma frame_trans w1 w2 w3 : frame w1 w2 -> frame w2 w3 -> frame w1 w3.
Proof.
  intros (H1 & H2 & H3 & H4 & H5 & H6 & H7) (K1 & K2 & K3 & K4 & K5 & K6 & K7).
  repeat split; congruence.
Qed.

Lemma frame_update_card f card w :
  (forall c, dataset_pokemon (f c) = dataset_pokemon c) ->
  frame w (update_card f card w).
Proof.
  intros Hf. repeat split. simpl. by apply fmap_dataset_alter.
Qed.

Lemma frame_handleMatch w : frame w (handleMatch w).
Proof.
  unfold handleMatch.
  destruct (firstSelectedCard w) as [first|]; [|apply frame_refl].
  destruct (secondSelectedCard w) as [second|]; [|apply frame_refl].
  cbv zeta.
  assert (frame w (update_card (set_matched true) second
                     (update_card (set_matched true) first w))) as H.
  { eapply frame_trans; by apply frame_update_card. }
  destruct H as (H1 & H2 & H3 & H4 & H5 & H6 & H7).
  case_decide; by repeat split.
Qed.

Lemma frame_checkForMatch w : frame w (checkForMatch w).
Proof.
  destruct (checkForMatch_cases w) as [->|[->| ->]];
    [by repeat split|apply frame_handleMatch|by repeat split].
Qed.

Lemma frame_handleCardClick target w : frame w (handleCardClick target w).
Proof.
  destruct target as [card|]; [|apply frame_refl].
  destruct (cards w !! card) as [c|] eqn:Hc;
    [|rewrite handleCardClick_no_card by done; apply frame_refl].
  destruct (decide (visibility c = hidden)) as [Hvis|Hvis];
    [|rewrite (handleCardClick_not_hidden card c) by done; apply frame_refl].
  destruct (isProcessingPair w) eqn:Hlock;
    [rewrite handleCardClick_locked by done; apply frame_refl|].
  rewrite (handleCardClick_hidden w card c) by done. cbv zeta.
  pose proof (frame_update_card (set_flipped true) card w (fun _ => eq_refl))
    as Hflip.
  destruct (firstSelectedCard w) as [first|].
  - case_decide; [|done].
    eapply frame_trans; [exact Hflip|].
    eapply frame_trans; [|apply frame_checkForMatch]. by repeat split.
  - eapply frame_trans; [exact Hflip|]. by repeat split.
Qed.

Lemma frame_flipBack w : frame w (flipBack w).
Proof.
  unfold flipBack.
  destruct (firstSelectedCard w) as [first|]; [|apply frame_refl].
  cbv zeta.
  pose proof (frame_update_card (set_flipped false) first w (fun _ => eq_refl))
    as H1.
  destruct (secondSelectedCard _) as [second|]; [|done].
  eapply frame_trans; [exact H1|].
  eapply frame_trans; [apply (frame_update_card (set_flipped false) second)|];
    [done|by repeat split].
Qed.

(** The first pick: a click on a hidden slot, with nothing selected and
    input open, reveals that slot and makes it the first selection; no
    other card changes, the slot keeps its entity, and the counter, the
    lock and the timers are as before. *)
Theorem first_pick_reveals (w : World) (card : nat)
    (Hhidden : slot_visibility w card = Some hidden)
    (Hnone : firstSelectedCard w = None)
    (Hunlocked : isProcessingPair w = false) :
  let w' := handleCardClick (Some card) w in
  slot_visibility w' card = Some revealed
  ∧ firstSelectedCard w' = Some card
  ∧ secondSelectedCard w' = secondSelectedCard w
  ∧ (forall i, i ≠ card -> cards w' !! i = cards w !! i)
  ∧ slot_pokemon w' card = slot_pokemon w card
  ∧ matchedPairs w' = matchedPairs w
  ∧ isProcessingPair w' = false
  ∧ timers w' = timers w.
Proof.
  unfold slot_visibility in Hhidden.
  apply fmap_Some in Hhidden as (c & Hc & Hvis). symmetry in Hvis.
  pose proof Hvis as [Hf Hm]%visibility_hidden.
  cbv zeta. rewrite (handleCardClick_hidden w card c) by done.
  cbv zeta. rewrite Hnone.
  unfold slot_visibility, slot_pokemon. simpl.
  rewrite list_lookup_alter_eq, Hc. simpl.
  split_and!; try done.
  - f_equal. by apply visibility_revealed.
  - intros i Hi. by rewrite list_lookup_alter_ne.
Qed.

(** ** Cards left revealed *)

Lemma stranded_lookup w i :
  stranded w i ->
  exists c, cards w !! i = Some c ∧ class_flipped c = true
            ∧ class_matched c = false.
Proof.
  intros (Hvis & _). unfold slot_visibility in Hvis.
  apply fmap_Some in Hvis as (c & Hc & Hrev). symmetry in Hrev.
  apply visibility_revealed in Hrev. eauto.
Qed.

Lemma stranded_same_card w w' i :
  cards w' !! i = cards w !! i ->
  firstSelectedCard w' ≠ Some i -> secondSelectedCard w' ≠ Some i ->
  stranded w i -> stranded w' i.
Proof.
  intros Hc Hf Hs (Hvis & _). unfold stranded, slot_visibility in *.
  by rewrite Hc.
Qed.

(** The comparison of a pair in which a slot holds no entity is given up:
    the selections are cleared at once, without lock or timer, the counter
    stays, and both slots are left revealed. *)
Theorem unreadable_pair_left_revealed (w : World) (first second : nat)
    (Hfirst : firstSelectedCard w = Some first)
    (Hdistinct : first ≠ second)
    (Hunlocked : isProcessingPair w = false)
    (Hrevealed : slot_visibility w first = Some revealed)
    (Hhidden : slot_visibility w second = Some hidden)
    (Hunbound : slot_pokemon w first = None ∨ slot_pokemon w second = None) :
  let w' := handleCardClick (Some second) w in
  stranded w' first ∧ stranded w' second
  ∧ firstSelectedCard w' = None ∧ secondSelectedCard w' = None
  ∧ isProcessingPair w' = false
  ∧ timers w' = timers w
  ∧ matchedPairs w' = matchedPairs w.
Proof.
  unfold slot_visibility in Hrevealed, Hhidden.
  apply fmap_Some in Hrevealed as (cf & Hcf & Hvf).
  apply fmap_Some in Hhidden as (cs & Hcs & Hvs).
  symmetry in Hvf, Hvs.
  pose proof Hvs as [Hsf Hsm]%visibility_hidden.
  cbv zeta. rewrite (handleCardClick_hidden w second cs) by done.
  cbv zeta. rewrite Hfirst, decide_True by done.
  rewrite checkForMatch_unbound.
  - unfold stranded, slot_visibility. simpl.
    rewrite list_lookup_alter_ne, list_lookup_alter_eq, Hcf, Hcs by done.
    simpl. rewrite Hvf.
    assert (visibility (set_flipped true cs) = revealed) as ->
      by (by apply visibility_revealed).
    by split_and!.
  - destruct Hunbound as [Hnone|Hnone].
    + left. intros p.
      change (firstSelectedCard (set_secondSelectedCard _ _))
        with (firstSelectedCard w).
      rewrite Hfirst. apply parse_pokemon_unbound.
      unfold slot_pokemon in *. simpl.
      by rewrite list_lookup_alter_ne.
    + right. intros q. apply parse_pokemon_unbound.
      unfold slot_pokemon in *. simpl.
      rewrite list_lookup_alter_eq. by destruct (cards w !! second).
Qed.

Lemma checkForMatch_stranded w first second i :
  firstSelectedCard w = Some first -> secondSelectedCard w = Some second ->
  first ≠ i -> second ≠ i ->
  slot_visibility w i = Some revealed ->
  stranded (checkForMatch w) i.
Proof.
  intros Hf Hs Hfi Hsi Hvis.
  destruct (checkForMatch_cases w) as [->|[->| ->]].
  - by repeat split.
  - destruct (handleMatch_fields w first second)
      as (Hcards & _ & Hn1 & Hn2 & _); [done..|].
    unfold stranded, slot_visibility. rewrite Hcards, Hn1, Hn2.
    rewrite !list_lookup_alter_ne by done. by repeat split.
  - unfold stranded. simpl. rewrite Hf, Hs.
    split_and!; [done|congruence..].
Qed.

Lemma handleCardClick_stranded target w i :
  stranded w i -> stranded (handleCardClick target w) i.
Proof.
  intros Hst. pose proof Hst as (Hvis & Hf & Hs).
  destruct (stranded_lookup w i Hst) as (ci & Hci & Hcif & Hcim).
  destruct target as [card|]; [|done].
  destruct (cards w !! card) as [c|] eqn:Hc;
    [|by rewrite handleCardClick_no_card].
  destruct (decide (visibility c = hidden)) as [Hhid|Hhid];
    [|by rewrite (handleCardClick_not_hidden card c)].
  destruct (isProcessingPair w) eqn:Hlock;
    [by rewrite handleCardClick_locked|].
  assert (card ≠ i) as Hne.
  { intros ->. apply visibility_hidden in Hhid as [Hfl _]. congruence. }
  rewrite (handleCardClick_hidden w card c) by done. cbv zeta.
  set (w1 := update_card (set_flipped true) card w).
  assert (slot_visibility w1 i = Some revealed) as Hvis1.
  { unfold slot_visibility. subst w1. simpl.
    by rewrite list_lookup_alter_ne. }
  destruct (firstSelectedCard w) as [first|] eqn:Hfirst.
  - case_decide.
    + apply (checkForMatch_stranded _ first card); try done. congruence.
    + split_and!; [exact Hvis1| |exact Hs].
      change (firstSelectedCard w1) with (firstSelectedCard w).
      by rewrite Hfirst.
  - split_and!; [exact Hvis1| |exact Hs]. simpl. congruence.
Qed.

Lemma flipBack_stranded w i : stranded w i -> stranded (flipBack w) i.
Proof.
  intros (Hvis & Hf & Hs). unfold flipBack.
  destruct (firstSelectedCard w) as [first|] eqn:Hfirst.
  2: { unfold stranded. by rewrite Hfirst. }
  assert (first ≠ i) as Hfi by congruence.
  cbv zeta.
  change (secondSelectedCard (update_card (set_flipped false) first w))
    with (secondSelectedCard w).
  destruct (secondSelectedCard w) as [second|] eqn:Hsecond.
  - assert (second ≠ i) as Hsi by congruence.
    unfold stranded, slot_visibility in *. simpl.
    rewrite !list_lookup_alter_ne by done. by repeat split.
  - unfold stranded, slot_visibility in *. simpl.
    rewrite Hfirst, Hsecond, list_lookup_alter_ne by done. by repeat split.
Qed.

Lemma step_stranded e w w' i :
  step e w = Some w' -> e ≠ PlayAgain -> stranded w i -> stranded w' i.
Proof.
  intros Hstep Hne Hst. destruct e as [target|k|k env|]; [| | |done].
  - apply step_Click in Hstep as [-> | ->]; [|done].
    by apply handleCardClick_stranded.
  - simpl in Hstep. destruct (timers w !! k) as [t|]; simplify_eq/=.
    destruct t; [by apply flipBack_stranded|done].
  - simpl in Hstep. destruct (suspended w !! k) as [caller|]; simplify_eq/=.
    destruct Hst as (Hvis & Hf & Hs).
    assert (stranded (fetchAndAssignPokemon env
                        (set_suspended (delete k (suspended w)) w)) i) as H.
    { rewrite fetchAndAssignPokemon_eq.
      set (w0 := set_suspended _ w). set (sp := shuffledPairs_of _ _).
      rewrite (assign_all_set_cards sp w0).
      unfold stranded, slot_visibility. simpl.
      rewrite assign_all_lookup.
      change (cards w0) with (cards w).
      unfold slot_visibility in Hvis.
      destruct (cards w !! i) as [c|]; [|done]. simpl in *.
      split_and!; [|done..].
      destruct (sp !! i); [|done]. by case_decide. }
    by destruct caller.
Qed.

(** A stranded slot is stranded for good.  In a reachable world with a slot
    that is revealed but neither matched nor selected, whatever events
    follow, that slot stays as it is, the counter stays below TOTAL_PAIRS
    and the completion message, with its Play Again button, is never
    shown. *)
Theorem stranded_forever (w : World) (i : nat)
    (Hreach : reachable w) (Hstranded : stranded w i) :
  forall es w', run es w = Some w' ->
    stranded w' i ∧ matchedPairs w' < TOTAL_PAIRS ∧ completions w' = 0.
Proof.
  assert (forall v, reachable v -> stranded v i ->
            matchedPairs v < TOTAL_PAIRS ∧ completions v = 0) as Hopen.
  { intros v Hv Hst. pose proof (reachable_Inv v Hv) as HI.
    destruct (stranded_lookup v i Hst) as (c & Hc & Hcf & Hcm).
    pose proof (board_lookup v i c Hc) as Hb.
    pose proof (matched_count_lt _ _ _ Hb Hcm) as Hlt.
    rewrite (inv_cards v HI), (inv_count v HI) in Hlt.
    assert (matchedPairs v < TOTAL_PAIRS) as Hmp
      by (unfold CARD_COUNT, TOTAL_PAIRS in *; lia).
    split; [done|]. rewrite (inv_complete v HI).
    rewrite decide_False; [done|lia]. }
  intros es. revert w Hreach Hstranded.
  induction es as [|e es IH]; intros w Hreach Hst w' Hrun; simplify_eq/=.
  - split; [done|]. by apply Hopen.
  - destruct (step e w) as [w1|] eqn:Hstep; simplify_eq/=.
    apply (IH w1); [by apply (reachable_step w e)| |done].
    apply (step_stranded e w); [done| |done].
    intros ->. simpl in Hstep.
    destruct (Hopen w Hreach Hst) as [_ Hzero].
    unfold completions in Hzero.
    destruct (completionMessages w); [done|lia].
Qed.

(** ** The session, again *)

Lemma matched_count_filter (l : list Card) :
  matched_count (face <$> l)
  = length (filter (fun c => visibility c = matched) l).
Proof.
  unfold matched_count. induction l as [|c l IH]; [done|].
  rewrite !fmap_cons, filter_cons. simpl. rewrite IH.
  unfold visibility. destruct (class_matched c); simpl; [done|].
  by destruct (class_flipped c).
Qed.

Lemma pending_elem_of t w : 0 < pending t w <-> t ∈ timers w.
Proof.
  unfold pending. induction (timers w) as [|t' l IH].
  - simpl. split; [lia|]. by intros ?%elem_of_nil.
  - rewrite filter_cons, elem_of_cons. case_decide; simpl.
    + subst. split; [auto|lia].
    + rewrite IH. split; [auto|]. intros [?|?]; [congruence|done].
Qed.

(** In every reachable world: the grid has CARD_COUNT cards; the matched
    cards are twice as many as the counter says; the first selection, if
    any, is a revealed unmatched slot; the second selection is held only
    while the lock is engaged; the lock is engaged exactly while a
    flip-back timer is pending; and at most one completion message is on
    the page. *)
Theorem session_shape (w : World) (Hreach : reachable w) :
  length (cards w) = CARD_COUNT
  ∧ length (filter (fun c => visibility c = matched) (cards w))
    = 2 * matchedPairs w
  ∧ (forall i, firstSelectedCard w = Some i ->
       slot_visibility w i = Some revealed)
  ∧ (isProcessingPair w = false -> secondSelectedCard w = None)
  ∧ (isProcessingPair w = true <-> FlipBack ∈ timers w)
  ∧ completionMessages w ≤ 1.
Proof.
  pose proof (reachable_Inv w Hreach) as HI.
  pose proof (inv_lock w HI) as Hlock.
  split_and!.
  - rewrite <- (inv_cards w HI). unfold board. by rewrite length_fmap.
  - rewrite <- matched_count_filter. apply HI.
  - intros i Hi. pose proof (inv_first w HI i Hi) as Hb.
    unfold board in Hb. rewrite list_lookup_fmap in Hb.
    unfold slot_visibility.
    destruct (cards w !! i) as [c|]; simplify_eq/=. f_equal.
    apply visibility_revealed. unfold face in *. by simplify_eq.
  - intros Hl. rewrite Hl in Hlock. by destruct Hlock.
  - rewrite <- pending_elem_of.
    destruct (isProcessingPair w); [|split; [done|lia]].
    split; [lia|done].
  - pose proof (inv_complete w HI) as Hc. unfold completions in Hc.
    case_decide; lia.
Qed.

(** The lock is never stuck: in a reachable world with the lock engaged a
    flip-back timer is pending, and when it fires the lock is released
    and no selection is left. *)
Theorem lock_releases (w : World)
    (Hreach : reachable w) (Hlocked : isProcessingPair w = true) :
  exists k w',
    timers w !! k = Some FlipBack
    ∧ step (TimerFires k) w = Some w'
    ∧ isProcessingPair w' = false
    ∧ firstSelectedCard w' = None ∧ secondSelectedCard w' = None.
Proof.
  pose proof (reachable_Inv w Hreach) as HI.
  pose proof (inv_lock w HI) as Hlock. rewrite Hlocked in Hlock.
  destruct Hlock as ([first Hfirst] & [second Hsecond] & Hone).
  assert (FlipBack ∈ timers w) as Hin by (apply pending_elem_of; lia).
  apply list_elem_of_lookup in Hin as [k Hk].
  exists k. eexists. split; [done|].
  simpl. rewrite Hk. simpl. split; [reflexivity|].
  unfold flipBack. simpl. rewrite Hfirst. simpl. by rewrite Hsecond.
Qed.

(** [resetGame] hides every card, clears the selections, the lock and
    the counter and starts a deal; until that deal arrives each card
    keeps the entity of the game before.  It shows no spinner, does not
    hide the grid, and cancels no timer. *)
Theorem resetGame_resets (w : World) :
  let w' := resetGame w in
  (forall i, slot_visibility w' i = (fun _ => hidden) <$> cards w !! i)
  ∧ (forall i, slot_pokemon w' i = slot_pokemon w i)
  ∧ firstSelectedCard w' = None ∧ secondSelectedCard w' = None
  ∧ isProcessingPair w' = false
  ∧ matchedPairs w' = 0
  ∧ suspended w' = suspended w ++ [FromResetGame]
  ∧ timers w' = timers w
  ∧ spinnerHidden w' = spinnerHidden w
  ∧ gridHidden w' = gridHidden w
  ∧ listening w' = listening w.
Proof.
  cbv zeta. split_and!; try done.
  - intros i. unfold slot_visibility. simpl.
    rewrite !list_lookup_fmap. by destruct (cards w !! i).
  - intros i. unfold slot_pokemon. simpl.
    rewrite !list_lookup_fmap. by destruct (cards w !! i).
Qed.

(** Until the first deal arrives the page is as [initApp] left it:
    spinner shown, grid hidden, click handler not installed, so that
    nothing reacts.  From then on the spinner is hidden, the grid shown
    and the handler installed, also while a replay is loading; only
    replays are ever outstanding. *)
Theorem loading_phase (w : World) (Hreach : reachable w) :
  (exists spinner grid, w = initApp (page_loaded spinner grid))
  ∨ (listening w = true ∧ spinnerHidden w = true ∧ gridHidden w = false
     ∧ Forall (fun caller => caller = FromResetGame) (suspended w)).
Proof.
  induction Hreach as [spinner grid|w e w' _ IH Hstep]; [left; eauto|].
  destruct IH as [(spinner & grid & ->)|(Hl & Hs & Hg & Hsusp)].
  - destruct e as [target|k|k env|].
    + left. exists spinner, grid. simpl in Hstep.
      destruct target as [card|]; [case_decide|]; by simplify_eq.
    + by destruct k.
    + right. destruct k as [|k]; [|done]. simpl in Hstep.
      injection Hstep as <-. rewrite fetchAndAssignPokemon_eq.
      rewrite assign_all_set_cards. by repeat split.
    + done.
  - right. destruct e as [target|k|k env|].
    + apply step_Click in Hstep as [-> | ->]; [|done].
      destruct (frame_handleCardClick target w)
        as (_ & -> & -> & -> & -> & _). done.
    + simpl in Hstep. destruct (timers w !! k) as [t|]; [|done].
      injection Hstep as <-. destruct t; [|done].
      change (run_timer FlipBack ?v) with (flipBack v).
      destruct (frame_flipBack (set_timers (delete k (timers w)) w))
        as (_ & -> & -> & -> & -> & _). done.
    + simpl in Hstep.
      destruct (suspended w !! k) as [caller|] eqn:Hk; simplify_eq/=.
      pose proof (Forall_delete _ _ k Hsusp) as Hdel.
      rewrite Forall_lookup in Hsusp. rewrite (Hsusp k caller Hk).
      rewrite fetchAndAssignPokemon_eq, assign_all_set_cards. simpl.
      by split_and!.
    + simpl in Hstep. destruct (completionMessages w); simplify_eq/=.
      split_and!; try done. apply Forall_app. split; [done|].
      by repeat constructor.
Qed.

(** Only a deal changes what a slot holds: after a click, a timer or
    Play Again every slot has the entity it had. *)
Theorem entities_kept (e : Event) (w w' : World)
    (Hstep : step e w = Some w')
    (Hother : forall k env, e ≠ DealArrives k env) :
  forall i, slot_pokemon w' i = slot_pokemon w i.
Proof.
  assert (dataset_pokemon <$> cards w' = dataset_pokemon <$> cards w) as Hsame.
  { destruct e as [target|k|k env|].
    - apply step_Click in Hstep as [-> | ->]; [|done].
      apply frame_handleCardClick.
    - simpl in Hstep. destruct (timers w !! k) as [t|]; simplify_eq/=.
      destruct t; [|done].
      apply (frame_flipBack (set_timers (delete k (timers w)) w)).
    - by destruct (Hother k env).
    - simpl in Hstep. destruct (completionMessages w); simplify_eq/=.
      rewrite <- !list_fmap_compose. done. }
  intros i. unfold slot_pokemon.
  apply (f_equal (fun l => l !! i)) in Hsame.
  rewrite !list_lookup_fmap in Hsame.
  destruct (cards w' !! i), (cards w !! i); by simplify_eq/=.
Qed.

Lemma timers_nil w :
  pending FlipBack w = 0 -> pending ShowGameComplete w = 0 -> timers w = [].
Proof.
  intros HF HC. destruct (timers w) as [|t l] eqn:Ht; [done|].
  assert (t ∈ timers w) as Hin by (rewrite Ht; by left).
  apply pending_elem_of in Hin. destruct t; lia.
Qed.

(** Play Again is on the page only when the game is over: in a reachable
    world that shows the completion message every card is matched, the
    counter is TOTAL_PAIRS, nothing is selected or locked and no timer is
    pending. *)
Theorem play_again_when_complete (w : World)
    (Hreach : reachable w) (Hshown : 0 < completionMessages w) :
  Forall (fun c => visibility c = matched) (cards w)
  ∧ matchedPairs w = TOTAL_PAIRS
  ∧ firstSelectedCard w = None ∧ secondSelectedCard w = None
  ∧ isProcessingPair w = false
  ∧ timers w = [].
Proof.
  pose proof (reachable_Inv w Hreach) as HI.
  destruct (completionMessages w) as [|n] eqn:Hn; [lia|].
  destruct (Inv_complete_shown w n HI Hn) as (Hmp & _ & HpC & Hl & HpF).
  assert (matched_count (board w) = length (board w)) as Hfull.
  { rewrite (inv_count w HI), (inv_cards w HI), Hmp. done. }
  pose proof (inv_lock w HI) as Hlock. rewrite Hl in Hlock.
  split_and!; try done.
  - apply Forall_lookup. intros i c Hc. apply visibility_matched.
    exact (matched_count_full _ _ _ Hfull (board_lookup w i c Hc)).
  - destruct (firstSelectedCard w) as [i|] eqn:Hfirst; [|done].
    pose proof (inv_first w HI i Hfirst) as Hb.
    by pose proof (matched_count_full _ _ _ Hfull Hb).
  - by destruct Hlock.
  - by apply timers_nil.
Qed.

End Program.

(** * Examples *)

Local Abbreviation played := (after upper_unchanged).

(** The record of the example is processed into the entity of the
    example; the record without identifier and measures is processed as
    well, the entry without [stat] not being visited. *)
Example processPokemonData_examples :
  (forall n, processPokemonData upper_unchanged (example_raw n)
             = Ok (example_pokemon n))
  ∧ processPokemonData upper_unchanged example_partial
    = Ok {| id := None; name := js "Ho oh"; sprite := None; types := [None];
            height := None; weight := None; abilities := [];
            stats := {| hp := Some 106; attack := Some 130;
                        defense := Some 90; speed := None |};
            speciesUrl := None |}
  ∧ processPokemonData upper_unchanged
      {| raw_id := Some 1; raw_name := js "a"; raw_artwork := None;
         raw_front_default := None; raw_types := []; raw_height := Some 1%Z;
         raw_weight := Some 1%Z; raw_abilities := [];
         raw_stats := [ {| stat := Some (Some (js "hp")); base_stat := Some 1 |};
                        {| stat := None; base_stat := Some 1 |} ];
         raw_species_url := None |}
    = Throw TypeError.
Proof. split_and!; reflexivity. Qed.

Example dealt_identifiers :
  (fun c => id <$> dataset_pokemon c) <$> cards (played dealt)
  = Some <$> (Some <$> [1; 6; 3; 6; 2; 5; 3; 2; 1; 5; 4; 4]).
Proof. reflexivity. Qed.

(** Six pairs found: the counter is at six, every card is matched, the
    completion is pending; once it is shown, Play Again zeroes the
    counter. *)
Example whole_game_complete :
  matchedPairs (played whole_game) = 6
  ∧ timers (played whole_game) = [ShowGameComplete]
  ∧ Forall (fun c => visibility c = matched) (cards (played whole_game))
  ∧ matchedPairs (played (whole_game ++ [TimerFires 0; PlayAgain])) = 0.
Proof.
  split_and!; [reflexivity..| |reflexivity].
  apply Forall_forall. intros c Hc. vm_compute in Hc.
  repeat (destruct Hc as [<-|Hc]; [reflexivity|]). destruct Hc.
Qed.

(** After the pair of identifier 1 (slots 0 and 8), identifier 6 (slot 1)
    then identifier 3 (slot 2): the lock engages, a click on slot 4 is
    ignored, and the timer returns both slots to hidden with the counter
    still at one. *)
Example mismatch_cycle :
  let picked := dealt ++ [Click (Some 0); Click (Some 8);
                          Click (Some 1); Click (Some 2)] in
  let w := played picked in
  let w' := played (picked ++ [Click (Some 4); TimerFires 0]) in
  matchedPairs w = 1 ∧ isProcessingPair w = true
  ∧ slot_visibility w 1 = Some revealed ∧ slot_visibility w 2 = Some revealed
  ∧ slot_visibility w' 1 = Some hidden ∧ slot_visibility w' 2 = Some hidden
  ∧ slot_visibility w' 4 = Some hidden
  ∧ matchedPairs w' = 1 ∧ isProcessingPair w' = false.
Proof. by vm_compute. Qed.

(** ** Witnesses and counterexamples *)

(** C1 at a deal in which the network rejects every request. *)
Lemma empty_batch_presents_board_witness :
  (forall k, k < 6 -> fetchRandomPokemon upper_unchanged (answers 0) k = None)
  ∧ exists w',
      step upper_unchanged (DealArrives 0 (answers 0)) first_page = Some w'
      ∧ errorMessages w' = 0
      ∧ listening w' = true ∧ gridHidden w' = false ∧ spinnerHidden w' = true
      ∧ forall i, i < CARD_COUNT ->
          slot_pokemon w' i = None ∧ slot_visibility w' i = Some hidden.
Proof.
  assert (forall k, k < 6 ->
            fetchRandomPokemon upper_unchanged (answers 0) k = None)
    as Hfail by (intros k _; reflexivity).
  split; [exact Hfail|].
  exact (empty_batch_presents_board upper_unchanged (answers 0) true false Hfail).
Defined.

(** C2 as stated fails: with five entities, slot 11 holds none, and a
    click on it reveals it and records it as the pending selection. *)
Lemma unbound_slot_selected :
  let w := played [DealArrives 0 (answers 5)] in
  slot_pokemon w 11 = None
  ∧ slot_visibility w 11 = Some hidden
  ∧ firstSelectedCard w = None
  ∧ step upper_unchanged (Click (Some 11)) w
    = Some (handleCardClick (Some 11) w)
  ∧ slot_visibility (handleCardClick (Some 11) w) 11 = Some revealed
  ∧ firstSelectedCard (handleCardClick (Some 11) w) = Some 11.
Proof. by vm_compute. Qed.

Lemma unbound_slots_witness :
  let w' := fetchAndAssignPokemon upper_unchanged (answers 5) first_page in
  cards first_page = createCardElement <$> seq 0 CARD_COUNT
  ∧ length (fetchMultipleRandomPokemon upper_unchanged (answers 5) 6)
    < TOTAL_PAIRS
  ∧ is_Some (slot_pokemon w' 9) ∧ slot_pokemon w' 10 = None.
Proof.
  intros w'.
  assert (cards first_page = createCardElement <$> seq 0 CARD_COUNT)
    as Hfresh by reflexivity.
  assert (length (fetchMultipleRandomPokemon upper_unchanged (answers 5) 6)
          < TOTAL_PAIRS) as Hfew by (vm_compute; lia).
  destruct (unbound_slots upper_unchanged (answers 5) first_page Hfresh Hfew)
    as (Hlen & Hbound & Hunbound & _).
  split_and!; [exact Hfresh|exact Hfew|..].
  - subst w'. rewrite Hbound by (vm_compute; lia). vm_compute. eauto.
  - apply Hunbound. vm_compute. lia.
Defined.

(** C3 at the deal above: slot 0 is pending, slot 8 holds the same
    identifier. *)
Lemma second_pick_resolves_witness :
  let w := played (dealt ++ [Click (Some 0)]) in
  let w' := handleCardClick (Some 8) w in
  firstSelectedCard w = Some 0
  ∧ isProcessingPair w = false
  ∧ slot_visibility w 0 = Some revealed
  ∧ slot_visibility w 8 = Some hidden
  ∧ (id <$> slot_pokemon w 0) = Some (Some 1)
  ∧ (id <$> slot_pokemon w 8) = Some (Some 1)
  ∧ slot_visibility w' 0 = Some matched
  ∧ slot_visibility w' 8 = Some matched
  ∧ matchedPairs w' = matchedPairs w + 1
  ∧ firstSelectedCard w' = None ∧ secondSelectedCard w' = None.
Proof.
  intros w w'.
  set (p := example_pokemon 1).
  assert (firstSelectedCard w = Some 0) as H1 by reflexivity.
  assert (0 ≠ 8) as H2 by lia.
  assert (isProcessingPair w = false) as H3 by reflexivity.
  assert (slot_visibility w 0 = Some revealed) as H4 by reflexivity.
  assert (slot_visibility w 8 = Some hidden) as H5 by reflexivity.
  assert (slot_pokemon w 0 = Some p) as H6 by reflexivity.
  assert (slot_pokemon w 8 = Some p) as H7 by reflexivity.
  destruct (second_pick_resolves w 0 8 p p H1 H2 H3 H4 H5 H6 H7) as [Hmatch _].
  specialize (Hmatch eq_refl).
  split_and!; try reflexivity; apply Hmatch.
Defined.

(** C4 at the end of the whole game. *)
Lemma matchedPairs_counter_witness :
  reachable upper_unchanged (played whole_game)
  ∧ matchedPairs (played whole_game) = TOTAL_PAIRS
  ∧ completions (played whole_game) = 1
  ∧ forall target w',
      step upper_unchanged (Click target) (played whole_game) = Some w' ->
      w' = played whole_game.
Proof.
  assert (reachable upper_unchanged (played whole_game)) as Hreach.
  { apply (run_reachable upper_unchanged whole_game first_page).
    - apply reachable_init.
    - vm_compute. reflexivity. }
  assert (matchedPairs (played whole_game) = TOTAL_PAIRS) as Hsix
    by (vm_compute; reflexivity).
  destruct (matchedPairs_counter upper_unchanged (played whole_game) Hreach)
    as (_ & Hcompletions & _ & Hterminal & _).
  rewrite decide_True in Hcompletions by exact Hsix.
  split_and!; [exact Hreach|exact Hsix|exact Hcompletions|].
  exact (Hterminal Hsix).
Defined.

(** C5 at the pending slot 0 of the deal above. *)
Lemma click_is_ignored_witness :
  let w := played (dealt ++ [Click (Some 0)]) in
  (visibility <$> cards w !! 0) = Some revealed
  ∧ handleCardClick (Some 0) w = w.
Proof.
  intros w.
  set (c := set_flipped true
              (set_pokemon (example_pokemon 1) (createCardElement 0))).
  assert (cards w !! 0 = Some c) as Hcard by reflexivity.
  destruct (click_is_ignored w 0 c Hcard) as (Hrevealed & _).
  split; [reflexivity|]. apply Hrevealed. reflexivity.
Defined.

(** C6 at three entities. *)
Lemma shuffledPairs_of_two_each_witness :
  let entities := example_pokemon <$> [3; 1; 2] in
  1 ≤ length entities ≤ CARD_COUNT / 2
  ∧ NoDup (id <$> entities)
  ∧ length (shuffledPairs_of entities (fun k => k)) = 6
  ∧ count_occ id_eq_dec (id <$> shuffledPairs_of entities (fun k => k)) (Some 1)
    = 2.
Proof.
  intros entities.
  assert (1 ≤ length entities ≤ CARD_COUNT / 2) as Hrange by (vm_compute; lia).
  assert (NoDup (id <$> entities)) as Hunique
    by (apply (bool_decide_unpack _); vm_compute; exact I).
  destruct (shuffledPairs_of_two_each entities (fun k => k) Hrange Hunique)
    as [Hlen Htwice].
  split; [exact Hrange|]. split; [exact Hunique|]. split; [exact Hlen|].
  apply (Htwice (example_pokemon 1)).
  apply list_elem_of_In. vm_compute. auto.
Defined.

(** C8 as stated fails: a leading separator is not replaced. *)
Lemma leading_separator_kept :
  capitalizeFirstLetter upper_unchanged (js "-a-b") = js "-a-b"
  ∧ normalize_spec upper_unchanged (js "-a-b") = js " a-b"
  ∧ capitalizeFirstLetter upper_unchanged (js "-a-b")
    ≠ normalize_spec upper_unchanged (js "-a-b").
Proof. split_and!; [reflexivity..|]. by vm_compute. Qed.

Lemma capitalizeFirstLetter_normalizes_witness :
  js "mr-mime-jr" !! 0 ≠ Some hyphen
  ∧ capitalizeFirstLetter upper_unchanged (js "mr-mime-jr") = js "Mr mime-jr".
Proof.
  assert (js "mr-mime-jr" !! 0 ≠ Some hyphen) as Hfirst
    by (vm_compute; discriminate).
  destruct (capitalizeFirstLetter_normalizes
              upper_unchanged (js "mr-mime-jr") Hfirst) as (Hspec & _).
  split; [exact Hfirst|]. rewrite Hspec. reflexivity.
Defined.

(** C10 as stated fails: a leading sharp s (U+00DF) becomes two letters. *)
Lemma sharp_s_lengthens :
  capitalizeFirstLetter upper_unchanged [223%N; 97%N] = js "SSa"
  ∧ length (capitalizeFirstLetter upper_unchanged [223%N; 97%N])
    ≠ length [223%N; 97%N].
Proof. split; [reflexivity|]. by vm_compute. Qed.

(** C10 at a name that begins with e acute (U+00E9). *)
Lemma capitalizeFirstLetter_length_witness :
  let s := 233%N :: js "-a" in
  s !! 0 = Some 233%N ∧ (233 < 256)%N ∧ 233%N ≠ 223%N
  ∧ capitalizeFirstLetter upper_unchanged s = 201%N :: js " a"
  ∧ length (capitalizeFirstLetter upper_unchanged s) = length s.
Proof.
  intros s.
  assert (s !! 0 = Some 233%N) as Hfirst by reflexivity.
  assert (233 < 256)%N as Hlatin by reflexivity.
  assert (233%N ≠ 223%N) as Hne by discriminate.
  destruct (capitalizeFirstLetter_length upper_unchanged s)
    as (_ & _ & _ & Hkeeps).
  split; [exact Hfirst|]. split; [exact Hlatin|]. split; [exact Hne|].
  split; [reflexivity|].
  exact (Hkeeps 233%N Hfirst Hlatin Hne).
Defined.

(** ** Witnesses of the further properties *)

Lemma played_reachable es w :
  run upper_unchanged es first_page = Some w -> reachable upper_unchanged w.
Proof. apply run_reachable, reachable_init. Qed.

Lemma fetchMultipleRandomPokemon_in_catalog_witness :
  (forall k, random (answers 6) k = random nothing_at_zero k)
  ∧ (forall k randomId, 1 ≤ randomId ≤ TOTAL_POKEMON ->
       network (answers 6) k randomId = network nothing_at_zero k randomId)
  ∧ fetchMultipleRandomPokemon upper_unchanged (answers 6) 6
    = fetchMultipleRandomPokemon upper_unchanged nothing_at_zero 6.
Proof.
  assert (forall k, random (answers 6) k = random nothing_at_zero k)
    as Hdraws by reflexivity.
  assert (forall k randomId, 1 ≤ randomId ≤ TOTAL_POKEMON ->
            network (answers 6) k randomId = network nothing_at_zero k randomId)
    as Hanswers.
  { intros k randomId [Hpos _]. unfold nothing_at_zero. cbn [network].
    destruct (decide (randomId = 0)) as [->|_]; [inversion Hpos|reflexivity]. }
  split; [exact Hdraws|]. split; [exact Hanswers|].
  exact (fetchMultipleRandomPokemon_in_catalog
           upper_unchanged (answers 6) nothing_at_zero 6 Hdraws Hanswers).
Defined.

Lemma fetchMultipleRandomPokemon_repeats_witness :
  let pokemon := example_pokemon 1 in
  0 < 1 < 6
  ∧ fetchRandomPokemon upper_unchanged same_draw 0 = Some pokemon
  ∧ fetchRandomPokemon upper_unchanged same_draw 1 = Some pokemon
  ∧ exists before between behind,
      fetchMultipleRandomPokemon upper_unchanged same_draw 6
      = before ++ pokemon :: between ++ pokemon :: behind.
Proof.
  intros pokemon.
  assert (0 < 1 < 6) as Horder by lia.
  assert (fetchRandomPokemon upper_unchanged same_draw 0 = Some pokemon)
    as H0 by reflexivity.
  assert (fetchRandomPokemon upper_unchanged same_draw 1 = Some pokemon)
    as H1 by reflexivity.
  split; [exact Horder|]. split; [exact H0|]. split; [exact H1|].
  exact (fetchMultipleRandomPokemon_repeats
           upper_unchanged same_draw 6 0 1 pokemon Horder H0 H1).
Defined.


Lemma shuffleArray_reaches_witness :
  [10; 20; 30] ≡ₚ [30; 10; 20]
  ∧ exists rnd, shuffleArray rnd [10; 20; 30] = [30; 10; 20].
Proof.
  assert ([10; 20; 30] ≡ₚ [30; 10; 20]) as Hperm.
  { apply Permutation_sym.
    exact (@Permutation_middle nat [10; 20] [] 30). }
  split; [exact Hperm|].
  exact (shuffleArray_reaches [10; 20; 30] [30; 10; 20] Hperm).
Defined.

Lemma fetchAndAssignPokemon_full_deal_witness :
  let w' := fetchAndAssignPokemon upper_unchanged (answers 6) first_page in
  length (cards first_page) = CARD_COUNT
  ∧ length (fetchMultipleRandomPokemon upper_unchanged (answers 6) 6)
    = TOTAL_PAIRS
  ∧ id <$> omap dataset_pokemon (cards w')
    = Some <$> [1; 6; 3; 6; 2; 5; 3; 2; 1; 5; 4; 4]
  ∧ forall i, i < CARD_COUNT -> is_Some (slot_pokemon w' i).
Proof.
  intros w'.
  assert (length (cards first_page) = CARD_COUNT) as Hgrid by reflexivity.
  assert (length (fetchMultipleRandomPokemon upper_unchanged (answers 6) 6)
          = TOTAL_PAIRS) as Hfull by (vm_compute; reflexivity).
  destruct (fetchAndAssignPokemon_full_deal
              upper_unchanged (answers 6) first_page Hgrid Hfull)
    as (Hpairs & _ & Hbound).
  split; [exact Hgrid|]. split; [exact Hfull|]. split; [|exact Hbound].
  subst w'. rewrite Hpairs. vm_compute. reflexivity.
Defined.

Lemma first_pick_reveals_witness :
  let w := played dealt in
  let w' := handleCardClick (Some 0) w in
  slot_visibility w 0 = Some hidden
  ∧ firstSelectedCard w = None
  ∧ isProcessingPair w = false
  ∧ slot_visibility w' 0 = Some revealed
  ∧ firstSelectedCard w' = Some 0
  ∧ forall i, i ≠ 0 -> cards w' !! i = cards w !! i.
Proof.
  intros w w'.
  assert (slot_visibility w 0 = Some hidden) as H1 by reflexivity.
  assert (firstSelectedCard w = None) as H2 by reflexivity.
  assert (isProcessingPair w = false) as H3 by reflexivity.
  destruct (first_pick_reveals w 0 H1 H2 H3) as (Hrev & Hfirst & _ & Hrest & _).
  split; [exact H1|]. split; [exact H2|]. split; [exact H3|].
  split; [exact Hrev|]. split; [exact Hfirst|exact Hrest].
Defined.

(** Five entities dealt; the unbound slot 10 is picked first, then slot 0. *)
Lemma unreadable_pair_left_revealed_witness :
  let w := played [DealArrives 0 (answers 5); Click (Some 10)] in
  let w' := handleCardClick (Some 0) w in
  firstSelectedCard w = Some 10
  ∧ isProcessingPair w = false
  ∧ slot_visibility w 10 = Some revealed
  ∧ slot_visibility w 0 = Some hidden
  ∧ slot_pokemon w 10 = None
  ∧ stranded w' 10 ∧ stranded w' 0
  ∧ firstSelectedCard w' = None ∧ timers w' = timers w.
Proof.
  intros w w'.
  assert (firstSelectedCard w = Some 10) as H1 by reflexivity.
  assert (10 ≠ 0) as H2 by lia.
  assert (isProcessingPair w = false) as H3 by reflexivity.
  assert (slot_visibility w 10 = Some revealed) as H4 by reflexivity.
  assert (slot_visibility w 0 = Some hidden) as H5 by reflexivity.
  assert (slot_pokemon w 10 = None) as H6 by reflexivity.
  destruct (unreadable_pair_left_revealed w 10 0 H1 H2 H3 H4 H5 (or_introl H6))
    as (Hst1 & Hst2 & Hnone & _ & _ & Htimers & _).
  split; [exact H1|]. split; [exact H3|]. split; [exact H4|].
  split; [exact H5|]. split; [exact H6|]. split; [exact Hst1|].
  split; [exact Hst2|]. split; [exact Hnone|exact Htimers].
Defined.

Lemma stranded_forever_witness :
  let es := [DealArrives 0 (answers 5); Click (Some 10); Click (Some 0)] in
  let later := [Click (Some 0); Click (Some 1); Click (Some 2); TimerFires 0;
                Click (Some 4); Click (Some 7)] in
  reachable upper_unchanged (played es)
  ∧ stranded (played es) 0
  ∧ stranded (played (es ++ later)) 0
  ∧ matchedPairs (played (es ++ later)) < TOTAL_PAIRS.
Proof.
  intros es later.
  assert (reachable upper_unchanged (played es)) as Hreach
    by (apply (played_reachable es); vm_compute; reflexivity).
  assert (stranded (played es) 0) as Hst.
  { split; [reflexivity|]. split; vm_compute; discriminate. }
  assert (run upper_unchanged later (played es) = Some (played (es ++ later)))
    as Hrun by (vm_compute; reflexivity).
  destruct (stranded_forever upper_unchanged (played es) 0 Hreach Hst
              later (played (es ++ later)) Hrun) as (Hst' & Hmp & _).
  split; [exact Hreach|]. split; [exact Hst|]. split; [exact Hst'|exact Hmp].
Defined.

Lemma session_shape_witness :
  let w := played (dealt ++ [Click (Some 0); Click (Some 8); Click (Some 1)]) in
  reachable upper_unchanged w
  ∧ length (filter (fun c => visibility c = matched) (cards w))
    = 2 * matchedPairs w
  ∧ slot_visibility w 1 = Some revealed.
Proof.
  intros w.
  assert (reachable upper_unchanged w) as Hreach.
  { apply (played_reachable
             (dealt ++ [Click (Some 0); Click (Some 8); Click (Some 1)])).
    vm_compute. reflexivity. }
  destruct (session_shape upper_unchanged w Hreach)
    as (_ & Hcount & Hfirst & _).
  split; [exact Hreach|]. split; [exact Hcount|].
  apply Hfirst. reflexivity.
Defined.

(** Identifier 1 (slot 0) then identifier 6 (slot 1): locked. *)
Lemma lock_releases_witness :
  let w := played (dealt ++ [Click (Some 0); Click (Some 1)]) in
  reachable upper_unchanged w
  ∧ isProcessingPair w = true
  ∧ exists k w',
      timers w !! k = Some FlipBack
      ∧ step upper_unchanged (TimerFires k) w = Some w'
      ∧ isProcessingPair w' = false
      ∧ firstSelectedCard w' = None ∧ secondSelectedCard w' = None.
Proof.
  intros w.
  assert (reachable upper_unchanged w) as Hreach.
  { apply (played_reachable (dealt ++ [Click (Some 0); Click (Some 1)])).
    vm_compute. reflexivity. }
  assert (isProcessingPair w = true) as Hlocked by reflexivity.
  split; [exact Hreach|]. split; [exact Hlocked|].
  exact (lock_releases upper_unchanged w Hreach Hlocked).
Defined.

Lemma loading_phase_witness :
  reachable upper_unchanged (played dealt)
  ∧ listening (played dealt) = true
  ∧ ((exists spinner grid, played dealt = initApp (page_loaded spinner grid))
     ∨ (listening (played dealt) = true ∧ spinnerHidden (played dealt) = true
        ∧ gridHidden (played dealt) = false
        ∧ Forall (fun caller => caller = FromResetGame)
                 (suspended (played dealt)))).
Proof.
  assert (reachable upper_unchanged (played dealt)) as Hreach
    by (apply (played_reachable dealt); vm_compute; reflexivity).
  split; [exact Hreach|]. split; [reflexivity|].
  exact (loading_phase upper_unchanged (played dealt) Hreach).
Defined.

Lemma entities_kept_witness :
  let w := played dealt in
  let w' := played (dealt ++ [Click (Some 0)]) in
  step upper_unchanged (Click (Some 0)) w = Some w'
  ∧ (forall k env, Click (Some 0) ≠ DealArrives k env)
  ∧ forall i, slot_pokemon w' i = slot_pokemon w i.
Proof.
  intros w w'.
  assert (step upper_unchanged (Click (Some 0)) w = Some w')
    as Hstep by (vm_compute; reflexivity).
  assert (forall k env, Click (Some 0) ≠ DealArrives k env)
    as Hother by (intros k env; discriminate).
  split; [exact Hstep|]. split; [exact Hother|].
  exact (entities_kept upper_unchanged (Click (Some 0)) w w' Hstep Hother).
Defined.

Lemma play_again_when_complete_witness :
  let w := played (whole_game ++ [TimerFires 0]) in
  reachable upper_unchanged w
  ∧ 0 < completionMessages w
  ∧ Forall (fun c => visibility c = matched) (cards w)
  ∧ timers w = [].
Proof.
  intros w.
  assert (reachable upper_unchanged w) as Hreach.
  { apply (played_reachable (whole_game ++ [TimerFires 0])).
    vm_compute. reflexivity. }
  assert (0 < completionMessages w) as Hshown by (vm_compute; lia).
  destruct (play_again_when_complete upper_unchanged w Hreach Hshown)
    as (Hall & _ & _ & _ & _ & Htimers).
  split; [exact Hreach|]. split; [exact Hshown|].
  split; [exact Hall|exact Htimers].
Defined.
